(** * The interactive grid of the landing page: tones, highlights, pools

    A shallow embedding of the canvas component [AnimatedHomepage] in its
    five variants:

    - [Fixed]    : 7 rows, 16 columns, silent top and bottom rows, drum
                   columns left and right, 70 note cells;
    - [Oriented] : 7 rows, 16 or 9 columns chosen by the orientation of the
                   window, the scale regenerated on resize;
    - [Fill]     : 8 rows, as many columns as fit the canvas, every cell a
                   note cell ([page copy 5.tsx]);
    - [Trail]    : cells of 150 pixels, the bottom three rows silent, no
                   highlights;
    - [Sparks]   : cells of 100 pixels, particles only, an early return
                   outside the grid.

    Conventions of the embedding.

    - A JavaScript number is a rational or one of [Infinity], [-Infinity],
      [NaN] ([JS.num]); rounding and overflow of doubles and the sign of
      zero are not modelled.  Pointer coordinates and canvas sizes enter as
      rationals.
    - [Date.now()] is an integer number of milliseconds ([Z]).
    - Frequencies are real numbers, [Math.pow] on them is [Rpower].
    - React refs are the fields of a state record; every callback is a
      function from state to state that also returns what it emitted
      (console lines, calls of the audio players, oscillators started).
    - A callback that can be left by an exception returns a [Completion],
      which carries the state reached in both cases.
    - [Math.random()] is an oracle [random : nat -> Q] indexed by the number
      of draws made so far.
    - Drawing on the canvas is output only and is not part of the state;
      the canvas and its 2D context are present. *)

From Stdlib Require Import ZArith QArith Qround Reals Lqa Lra Lia Bool String.
From stdpp Require Import base list sorting.

Local Open Scope Z_scope.

(** ** JavaScript numbers *)

Module JS.

Local Open Scope Q_scope.

Inductive num : Type :=
| Fin (q : Q)
| PInf
| NInf
| NaN.

Definition of_Z (z : Z) : num := Fin (inject_Z z).

Definition neg (a : num) : num :=
  match a with
  | Fin q => Fin (Qred (- q))
  | PInf => NInf
  | NInf => PInf
  | NaN => NaN
  end.

Definition add (a b : num) : num :=
  match a, b with
  | NaN, _ | _, NaN => NaN
  | Fin x, Fin y => Fin (Qred (x + y))
  | PInf, NInf | NInf, PInf => NaN
  | PInf, _ | _, PInf => PInf
  | NInf, _ | _, NInf => NInf
  end.

Definition sub (a b : num) : num := add a (neg b).

Definition mul (a b : num) : num :=
  match a, b with
  | NaN, _ | _, NaN => NaN
  | Fin x, Fin y => Fin (Qred (x * y))
  | Fin x, PInf | PInf, Fin x =>
      match x ?= 0 with Eq => NaN | Gt => PInf | Lt => NInf end
  | Fin x, NInf | NInf, Fin x =>
      match x ?= 0 with Eq => NaN | Gt => NInf | Lt => PInf end
  | PInf, PInf | NInf, NInf => PInf
  | PInf, NInf | NInf, PInf => NInf
  end.

(** Division; a zero divisor counts as [+0] (the divisors of the source
    are the canvas height over the row count and positive constants). *)
Definition div (a b : num) : num :=
  match a, b with
  | NaN, _ | _, NaN => NaN
  | Fin x, Fin y =>
      match y ?= 0 with
      | Eq => match x ?= 0 with Eq => NaN | Gt => PInf | Lt => NInf end
      | _ => Fin (Qred (x / y))
      end
  | Fin _, (PInf | NInf) => Fin 0
  | PInf, Fin y => match y ?= 0 with Lt => NInf | _ => PInf end
  | NInf, Fin y => match y ?= 0 with Lt => PInf | _ => NInf end
  | (PInf | NInf), (PInf | NInf) => NaN
  end.

(** [Math.floor] *)
Definition floor (a : num) : num :=
  match a with
  | Fin q => of_Z (Qfloor q)
  | _ => a
  end.

(** [Math.max] of two arguments *)
Definition max (a b : num) : num :=
  match a, b with
  | NaN, _ | _, NaN => NaN
  | PInf, _ | _, PInf => PInf
  | NInf, c | c, NInf => c
  | Fin x, Fin y => if Qle_bool x y then Fin y else Fin x
  end.

(** Comparison; [None] when one side is [NaN]. *)
Definition compare (a b : num) : option comparison :=
  match a, b with
  | NaN, _ | _, NaN => None
  | Fin x, Fin y => Some (x ?= y)
  | PInf, PInf | NInf, NInf => Some Eq
  | NInf, _ | _, PInf => Some Lt
  | PInf, _ | _, NInf => Some Gt
  end.

Definition ltb (a b : num) : bool :=
  match compare a b with Some Lt => true | _ => false end.
Definition leb (a b : num) : bool :=
  match compare a b with Some Lt | Some Eq => true | _ => false end.
Definition gtb (a b : num) : bool := ltb b a.
Definition geb (a b : num) : bool := leb b a.
(** [===] on numbers *)
Definition eqb (a b : num) : bool :=
  match compare a b with Some Eq => true | _ => false end.

(** The array index a number denotes, if it is a non-negative integer. *)
Definition as_index (i : num) : option nat :=
  match i with
  | Fin q =>
      let z := Qfloor q in
      if Qeq_bool q (inject_Z z) && (0 <=? z)%Z then Some (Z.to_nat z)
      else None
  | _ => None
  end.

(** [arr[i]]; [None] is [undefined]. *)
Definition get {A} (arr : list A) (i : num) : option A :=
  as_index i ≫= λ n, arr !! n.

(** [arr.length] *)
Definition len {A} (arr : list A) : num := of_Z (Z.of_nat (length arr)).

(** [arr[i] = v] on an array with holes: an index past the end extends
    the array with holes; a key that is not an index leaves the elements
    alone. *)
Definition set {A} (arr : list (option A)) (i : num) (v : A)
  : list (option A) :=
  match as_index i with
  | Some n => <[n := Some v]> (arr ++ replicate (S n - length arr) None)
  | None => arr
  end.

(** The length an [Array] is created or resized with: [ToLength] maps
    [NaN] and negatives to 0 and drops the fraction; lengths of [2^32] and
    more are refused with a [RangeError] ([None]). *)
Definition array_length (n : num) : option nat :=
  match n with
  | NaN | NInf => Some 0%nat
  | PInf => None
  | Fin q =>
      let k := Qfloor q in
      if (k <? 2 ^ 32)%Z then Some (Z.to_nat k) else None
  end.

(** [arr.length = n]: only an integer in [[0, 2^32)] is accepted. *)
Definition set_length {A} (arr : list (option A)) (n : num)
  : option (list (option A)) :=
  match as_index n with
  | Some k =>
      if (Z.of_nat k <? 2 ^ 32)%Z
      then Some (take k arr ++ replicate (k - length arr) None)
      else None
  | None => None
  end.

(** [Array.from({ length: n }, (_, i) => f i)] for a length already
    checked. *)
Definition tabulate {A} (n : nat) (f : nat → A) : list A := f <$> seq 0 n.

End JS.

Declare Scope js_scope.
Delimit Scope js_scope with js.
Bind Scope js_scope with JS.num.
Infix "+" := JS.add : js_scope.
Infix "-" := JS.sub : js_scope.
Infix "*" := JS.mul : js_scope.
Infix "/" := JS.div : js_scope.
Infix "<?" := JS.ltb : js_scope.
Infix "<=?" := JS.leb : js_scope.
Infix ">?" := JS.gtb : js_scope.
Infix ">=?" := JS.geb : js_scope.
Infix "=?" := JS.eqb : js_scope.
Notation "$ z" := (JS.of_Z z) (at level 9, z at level 9, format "$ z") : js_scope.

(** ** The scale *)

Definition baseFreq : R := 130.81%R.

(** The pitch of note cell [i]: [baseFreq * Math.pow(2, i / 12)]. *)
Definition pitch (i : nat) : R := (baseFreq * Rpower 2 (INR i / 12))%R.

(** [generateScale(total)] *)
Definition generateScale (total : nat) : list R := JS.tabulate total pitch.


(** ** How a callback ends *)

(** A callback returns, or an exception leaves it; either way the refs it
    wrote keep their values, so both cases carry the state reached. *)
Inductive Completion (A : Type) : Type :=
| Normal (a : A)
| Throw (a : A).
Arguments Normal {A} a.
Arguments Throw {A} a.

Definition outcome {A} (c : Completion A) : A :=
  match c with Normal a | Throw a => a end.

Definition returned {A} (c : Completion A) : bool :=
  match c with Normal _ => true | Throw _ => false end.

(** ** Shapes, particles, highlights *)

Definition COLORS : list string :=
  ["#FF1461"; "#18FF92"; "#5A87FF"; "#FBF38C"]%string.

Module Shape.
Inductive kind : Type := circle | square | triangle.
Record t : Type := mk {
  x : Q; y : Q; size : Q;
  color : option string;
  type : option kind;
  alpha : Q; vx : Q; vy : Q; life : Q }.
End Shape.

Definition SHAPES : list Shape.kind :=
  [Shape.circle; Shape.square; Shape.triangle].

Module Particle.
Record t : Type := mk {
  x : Q; y : Q; size : Q; vx : Q; vy : Q; alpha : Q; life : Q; angle : Q }.
End Particle.

Module CellHighlight.
Record t : Type := mk { alpha : Q; scale : Q; time : Z }.
End CellHighlight.

Record Canvas : Type := mkCanvas { width : Q; height : Q }.

(** [a > b] on finite numbers *)
Definition Qgtb (a b : Q) : bool := negb (Qle_bool a b).

Section Spawning.
Variable random : nat → Q.

(** [createShape(x, y)], the first draw being number [k]; five draws. *)
Definition createShape (x y : Q) (k : nat) : Shape.t * nat :=
  ({| Shape.x := x;
      Shape.y := y;
      Shape.size := random k * 20 + 5;
      Shape.color :=
        JS.get COLORS (JS.floor (JS.Fin (random (k + 1)) * JS.len COLORS));
      Shape.type :=
        JS.get SHAPES (JS.floor (JS.Fin (random (k + 2)) * JS.len SHAPES));
      Shape.alpha := 1;
      Shape.vx := (random (k + 3) - 0.5) * 2;
      Shape.vy := (random (k + 4) - 0.5) * 2;
      Shape.life := 1 |}%Q,
   (k + 5)%nat).

(** [createParticle(x, y)] of the variants with highlights; four draws. *)
Definition createParticle (x y : Q) (k : nat) : Particle.t * nat :=
  ({| Particle.x := x;
      Particle.y := y;
      Particle.size := random k * 3 + 5;
      Particle.vx := (random (k + 1) - 0.5) * 4;
      Particle.vy := (random (k + 2) - 0.5) * 0.5;
      Particle.alpha := 1;
      Particle.life := 1;
      Particle.angle := random (k + 3) * 360 |}%Q,
   (k + 4)%nat).

End Spawning.

(** [for (let i = 0; i < n; i++) pool.push(create(x, y))] *)
Fixpoint pushEach {A} (n : nat) (create : nat → A * nat)
  (pool : list A) (k : nat) : list A * nat :=
  match n with
  | O => (pool, k)
  | S n' => let '(a, k') := create k in pushEach n' create (pool ++ [a]) k'
  end.

(** The body of the [filter] callback over the shapes, before its test. *)
Definition ageShape (s : Shape.t) : Shape.t :=
  let life := (Shape.life s - 0.01)%Q in
  {| Shape.x := Shape.x s + Shape.vx s;
     Shape.y := Shape.y s + Shape.vy s;
     Shape.size := Shape.size s + 0.2;
     Shape.color := Shape.color s;
     Shape.type := Shape.type s;
     Shape.alpha := life ^ 2;
     Shape.vx := Shape.vx s;
     Shape.vy := Shape.vy s;
     Shape.life := life |}%Q.

(** The same for particles; [grow] is 0.05 or 0.2 by variant. *)
Definition ageParticle (grow : Q) (p : Particle.t) : Particle.t :=
  let life := (Particle.life p - 0.02)%Q in
  {| Particle.x := Particle.x p + Particle.vx p;
     Particle.y := Particle.y p + Particle.vy p;
     Particle.size := Particle.size p + grow;
     Particle.vx := Particle.vx p;
     Particle.vy := Particle.vy p;
     Particle.alpha := life ^ 2;
     Particle.life := life;
     Particle.angle := Particle.angle p + 2 |}%Q.

(** [shapesRef.current.filter(shape => { ...; return shape.life > 0; })] *)
Definition stepShapes (pool : list Shape.t) : list Shape.t :=
  List.filter (λ s, Qgtb (Shape.life s) 0) (ageShape <$> pool).

Definition stepParticles (grow : Q) (pool : list Particle.t)
  : list Particle.t :=
  List.filter (λ p, Qgtb (Particle.life p) 0) (ageParticle grow <$> pool).

(** [if (pool.length > MAX) pool = pool.slice(-MAX)] *)
Definition trim {A} (MAX : nat) (pool : list A) : list A :=
  if (MAX <? length pool)%nat then drop (length pool - MAX) pool else pool.

(** ** Audio *)

Inductive Wave : Type := triangle | square.

(** What a callback emits: console lines, the calls it makes to the two
    players, and the oscillators the players start ([tone]: wave form,
    frequency, initial gain, seconds until it stops). *)
Inductive Emit : Type :=
| warn (msg : string)
| error (msg : string)
| playSoundCall (frequency : option R) (volume : JS.num)
| playDrumCall (volume : JS.num)
| tone (type : Wave) (frequency : R) (gain : Q) (seconds : Q).

(** [window.AudioContext || window.webkitAudioContext], when present, is a
    constructor that yields a context or throws. *)
Inductive AudioContextClass : Type := constructs | throws.

Record Window : Type := mkWindow {
  isSecureContext : bool;
  AudioContext : option AudioContextClass;
  innerWidth : Q;
  innerHeight : Q;
  devicePixelRatio : Q }.

(** The block [if (!audioContextRef.current) { ... }] shared by both
    players; the ref is modelled by whether a context has been created. *)
Inductive Acquired : Type := ready | unsupported | failed.

Definition acquireContext (window : Window) (audioContextRef : bool)
  : Acquired :=
  if audioContextRef then ready
  else match AudioContext window with
       | None => unsupported
       | Some constructs => ready
       | Some throws => failed
       end.

(** [playSound(frequency, volume)].  The body is one [try]: whatever is
    thrown inside is caught and logged.  [setValueAtTime] throws on a value
    that is not a finite number, which is the case of an [undefined]
    frequency and of a volume that is not finite.  The result is the new
    value of [audioContextRef] and what was emitted. *)
Definition playSound (window : Window) (audioContextRef : bool)
  (frequency : option R) (volume : JS.num) : bool * list Emit :=
  if negb (isSecureContext window)
  then (audioContextRef,
        [warn "AudioContext requires secure context (HTTPS)"])
  else
    match acquireContext window audioContextRef with
    | unsupported => (audioContextRef, [warn "AudioContext not supported"])
    | failed => (audioContextRef, [error "Error initializing audio:"])
    | ready =>
        match frequency, volume with
        | Some f, JS.Fin v => (true, [tone triangle f v 0.5])
        | _, _ => (true, [error "Error initializing audio:"])
        end
    end.

(** [playDrum(volume)]: no test of the secure context and no [try]. *)
Definition playDrum (window : Window) (audioContextRef : bool)
  (volume : JS.num) : Completion (bool * list Emit) :=
  match acquireContext window audioContextRef with
  | unsupported => Normal (audioContextRef, [warn "AudioContext not supported"])
  | failed => Throw (audioContextRef, [])
  | ready =>
      match volume with
      | JS.Fin v => Normal (true, [tone square 60 v 0.1])
      | _ => Throw (true, [])
      end
  end.

(** Reading what a callback emitted. *)
Definition isTone (e : Emit) : bool :=
  match e with tone _ _ _ _ => true | _ => false end.

(** A call of [playSound] or the triangle oscillator it starts. *)
Definition isNote (e : Emit) : bool :=
  match e with
  | playSoundCall _ _ | tone triangle _ _ _ => true
  | _ => false
  end.

(** The oscillators started, in order. *)
Definition tones (out : list Emit) : list Emit := List.filter isTone out.

(** The calls of [playSound] and the note oscillators. *)
Definition notes (out : list Emit) : list Emit := List.filter isNote out.

Definition stateAfter {S} (c : Completion (S * list Emit)) : S :=
  fst (outcome c).

Definition emitted {S} (c : Completion (S * list Emit)) : list Emit :=
  snd (outcome c).

(** [Math.max(0.1, 1 - (y / canvas.height) * 0.9)] *)
Definition volumeAt (y : Q) (canvas : Canvas) : JS.num :=
  JS.max (JS.Fin 0.1)
         ($1 - (JS.Fin y / JS.Fin (height canvas)) * JS.Fin 0.9)%js.

(** [currentTime - lastSoundTimeRef.current > 100] *)
Definition elapsed100 (currentTime lastSoundTime : Z) : bool :=
  100 <? currentTime - lastSoundTime.

(** ** Highlights *)

Definition highlightDuration : Z := 500.

(** One round of the loop of [drawCellHighlights] on slot [ch], at time
    [now]: a hole and a highlight of opacity 0 or less are skipped. *)
Definition fadeHighlight (now : Z) (ch : option CellHighlight.t)
  : option CellHighlight.t :=
  match ch with
  | None => None
  | Some h =>
      if Qle_bool (CellHighlight.alpha h) 0 then Some h
      else
        let elapsed := now - CellHighlight.time h in
        let progress := (inject_Z elapsed / inject_Z highlightDuration)%Q in
        if Qgtb progress 1
        then Some {| CellHighlight.alpha := 0;
                     CellHighlight.scale := CellHighlight.scale h;
                     CellHighlight.time := CellHighlight.time h |}
        else Some {| CellHighlight.alpha := 1 - progress;
                     CellHighlight.scale := 1 + 0.2 * (1 - progress);
                     CellHighlight.time := CellHighlight.time h |}%Q
  end.

(** The opacity a slot of the highlight array holds. *)
Definition opacityOf (slot : option CellHighlight.t) : Q :=
  match slot with Some h => CellHighlight.alpha h | None => 0 end.

(** [drawCellHighlights] for a grid of [totalCells] cells; the array is
    first resized to the grid, which throws on a length that is no array
    length. *)
Definition drawCellHighlights (totalCells : JS.num) (now : Z)
  (cellHighlights : list (option CellHighlight.t))
  : option (list (option CellHighlight.t)) :=
  let resized :=
    if (JS.len cellHighlights =? totalCells)%js then Some cellHighlights
    else JS.set_length cellHighlights totalCells in
  match resized with
  | Some cells => Some (fadeHighlight now <$> cells)
  | None => None
  end.

(** The highlight a note cell receives. *)
Definition flash (currentTime : Z) : CellHighlight.t :=
  {| CellHighlight.alpha := 1;
     CellHighlight.scale := 1.2;
     CellHighlight.time := currentTime |}.

(** ** The fixed grid: 7 rows, 16 columns *)

Module Fixed.

Definition rows : Z := 7.
Definition columns : Z := 16.
Definition noteRows : Z := 5.
Definition noteCols : Z := 14.
Definition totalNotes : Z := noteRows * noteCols.

Record State : Type := mkState {
  shapesRef : list Shape.t;
  particlesRef : list Particle.t;
  audioContextRef : bool;
  lastSoundTimeRef : Z;
  cellHighlightsRef : list (option CellHighlight.t);
  cellSizeRef : JS.num;
  scaleRef : list R;
  draws : nat }.

Definition initial : State :=
  {| shapesRef := []; particlesRef := []; audioContextRef := false;
     lastSoundTimeRef := 0; cellHighlightsRef := [];
     cellSizeRef := $150%js; scaleRef := []; draws := 0 |}.

(** [generateScale()] and the effect that stores it in [scaleRef]. *)
Definition generateScale : list R := generateScale (Z.to_nat totalNotes).

Definition mount (s : State) : State :=
  {| shapesRef := shapesRef s; particlesRef := particlesRef s;
     audioContextRef := audioContextRef s;
     lastSoundTimeRef := lastSoundTimeRef s;
     cellHighlightsRef := cellHighlightsRef s;
     cellSizeRef := cellSizeRef s; scaleRef := generateScale;
     draws := draws s |}.

(** The cell under the pointer: [(cellX, cellY)]. *)
Definition cellAt (x y : Q) (canvas : Canvas) : JS.num * JS.num :=
  let cellSize := (JS.Fin (height canvas) / $rows)%js in
  (JS.floor (JS.Fin x / cellSize), JS.floor (JS.Fin y / cellSize)).

Definition silentRow (cellY : JS.num) : bool :=
  (cellY =? $0)%js || (cellY =? $(rows - 1))%js.

Definition drumColumn (cellX : JS.num) : bool :=
  (cellX =? $0)%js || (cellX =? $(columns - 1))%js.

Definition noteRegion (cellX cellY : JS.num) : bool :=
  (cellX >=? $1)%js && (cellX <=? $14)%js
  && (cellY >=? $1)%js && (cellY <=? $5)%js.

Definition noteIndexOf (cellX cellY : JS.num) : JS.num :=
  ((cellY - $1) * $noteCols + (cellX - $1))%js.

Definition cellIndexOf (cellX cellY : JS.num) : JS.num :=
  (cellY * $columns + cellX)%js.

Section Callbacks.
Variable random : nat → Q.
Variable window : Window.

(** [handleInteractionLogic(x, y, canvas)], [Date.now()] giving
    [currentTime]. *)
Definition handleInteractionLogic (x y : Q) (canvas : Canvas)
  (currentTime : Z) (s : State) : Completion (State * list Emit) :=
  let cellSize := (JS.Fin (height canvas) / $rows)%js in
  let cellX := JS.floor (JS.Fin x / cellSize) in
  let cellY := JS.floor (JS.Fin y / cellSize) in
  let '(shapes, k) := pushEach 3 (createShape random x y) (shapesRef s) (draws s) in
  let '(particles, k) := pushEach 2 (createParticle random x y) (particlesRef s) k in
  let volume := volumeAt y canvas in
  let spawned audio last cells :=
    {| shapesRef := shapes; particlesRef := particles;
       audioContextRef := audio; lastSoundTimeRef := last;
       cellHighlightsRef := cells; cellSizeRef := cellSize;
       scaleRef := scaleRef s; draws := k |} in
  let quiet :=
    spawned (audioContextRef s) (lastSoundTimeRef s) (cellHighlightsRef s) in
  if silentRow cellY then Normal (quiet, [])
  else if drumColumn cellX then
    if elapsed100 currentTime (lastSoundTimeRef s) then
      match playDrum window (audioContextRef s) volume with
      | Normal (audio, out) =>
          Normal (spawned audio currentTime (cellHighlightsRef s),
                  playDrumCall volume :: out)
      | Throw (audio, out) =>
          Throw (spawned audio (lastSoundTimeRef s) (cellHighlightsRef s),
                 playDrumCall volume :: out)
      end
    else Normal (quiet, [])
  else if noteRegion cellX cellY then
    let noteIndex := noteIndexOf cellX cellY in
    let frequency := JS.get (scaleRef s) noteIndex in
    let cells :=
      JS.set (cellHighlightsRef s) (cellIndexOf cellX cellY)
             (flash currentTime) in
    if elapsed100 currentTime (lastSoundTimeRef s) then
      let '(audio, out) :=
        playSound window (audioContextRef s) frequency volume in
      Normal (spawned audio currentTime cells,
              playSoundCall frequency volume :: out)
    else Normal (spawned (audioContextRef s) (lastSoundTimeRef s) cells, [])
  else Normal (quiet, []).

End Callbacks.

Definition MAX_SHAPES : nat := 100.
Definition MAX_PARTICLES : nat := 100.

(** [animate()], with the canvas and its 2D context present; [now] is the
    [Date.now()] of [drawCellHighlights].  The grid has 112 cells, so the
    resize of the highlight array cannot throw. *)
Definition animate (canvas : Canvas) (now : Z) (s : State) : State :=
  let cellSize := (JS.Fin (height canvas) / $rows)%js in
  let cells :=
    match drawCellHighlights (JS.of_Z (rows * columns)) now
            (cellHighlightsRef s)
    with Some cells => cells | None => cellHighlightsRef s end in
  {| shapesRef := trim MAX_SHAPES (stepShapes (shapesRef s));
     particlesRef := trim MAX_PARTICLES (stepParticles 0.05 (particlesRef s));
     audioContextRef := audioContextRef s;
     lastSoundTimeRef := lastSoundTimeRef s;
     cellHighlightsRef := cells;
     cellSizeRef := cellSize;
     scaleRef := scaleRef s;
     draws := draws s |}.

End Fixed.

(** ** The grid that follows the orientation: 7 rows, 16 or 9 columns *)

Module Oriented.

Definition rows : Z := 7.

Record LayoutParams : Type := mkLayoutParams {
  currentColumns : Z; noteCols : Z; noteRows : Z; totalNotes : Z }.

(** [columns] is the module-level variable of the source; the canvas is
    part of the state because [updateLayoutAndScale] resizes it. *)
Record State : Type := mkState {
  shapesRef : list Shape.t;
  particlesRef : list Particle.t;
  audioContextRef : bool;
  lastSoundTimeRef : Z;
  cellHighlightsRef : list (option CellHighlight.t);
  cellSizeRef : JS.num;
  columns : Z;
  noteColsRef : Z;
  noteRowsRef : Z;
  totalNotesRef : Z;
  scaleRef : list R;
  canvas : Canvas;
  draws : nat }.

(** Before the first effect runs; 300 by 150 is the size of a canvas
    element that has not been sized. *)
Definition initial : State :=
  {| shapesRef := []; particlesRef := []; audioContextRef := false;
     lastSoundTimeRef := 0; cellHighlightsRef := [];
     cellSizeRef := $150%js; columns := 16;
     noteColsRef := 0; noteRowsRef := 0; totalNotesRef := 0;
     scaleRef := []; canvas := mkCanvas 300 150; draws := 0 |}.

Definition orientationIsPortrait (window : Window) : bool :=
  Qgtb (innerHeight window) (innerWidth window).

Definition getLayoutParams (window : Window) : LayoutParams :=
  let isPortrait := orientationIsPortrait window in
  let currentColumns := if isPortrait then 9 else 16 in
  let noteCols := currentColumns - 2 in
  let noteRows := 5 in
  let totalNotes := noteRows * noteCols in
  mkLayoutParams currentColumns noteCols noteRows totalNotes.

Definition generateScale (total : Z) : list R := generateScale (Z.to_nat total).

(** [updateLayoutAndScale(canvas)]; [window.devicePixelRatio || 1]. *)
Definition updateLayoutAndScale (window : Window) (s : State) : State :=
  let dpr :=
    if Qeq_bool (devicePixelRatio window) 0 then 1%Q
    else devicePixelRatio window in
  let params := getLayoutParams window in
  {| shapesRef := shapesRef s; particlesRef := particlesRef s;
     audioContextRef := audioContextRef s;
     lastSoundTimeRef := lastSoundTimeRef s;
     cellHighlightsRef := cellHighlightsRef s;
     cellSizeRef := cellSizeRef s;
     columns := currentColumns params;
     noteColsRef := noteCols params;
     noteRowsRef := noteRows params;
     totalNotesRef := totalNotes params;
     scaleRef := generateScale (totalNotes params);
     canvas := mkCanvas (innerWidth window * dpr) (innerHeight window * dpr);
     draws := draws s |}.

(** The cell under the pointer: [(cellX, cellY)]. *)
Definition cellAt (x y : Q) (canvas : Canvas) : JS.num * JS.num :=
  let cellSize := (JS.Fin (height canvas) / $rows)%js in
  (JS.floor (JS.Fin x / cellSize), JS.floor (JS.Fin y / cellSize)).

Definition silentRow (cellY : JS.num) : bool :=
  (cellY =? $0)%js || (cellY =? $(rows - 1))%js.

Definition drumColumn (columns : Z) (cellX : JS.num) : bool :=
  (cellX =? $0)%js || (cellX =? $(columns - 1))%js.

Definition noteRegion (columns : Z) (cellX cellY : JS.num) : bool :=
  (cellX >=? $1)%js && (cellX <=? $(columns - 2))%js
  && (cellY >=? $1)%js && (cellY <=? $5)%js.

Definition noteIndexOf (columns : Z) (cellX cellY : JS.num) : JS.num :=
  ((cellY - $1) * $(columns - 2) + (cellX - $1))%js.

Definition cellIndexOf (columns : Z) (cellX cellY : JS.num) : JS.num :=
  (cellY * $columns + cellX)%js.

Section Callbacks.
Variable random : nat → Q.
Variable window : Window.

(** [handleInteractionLogic(x, y, canvas)] *)
Definition handleInteractionLogic (x y : Q) (canvas : Canvas)
  (currentTime : Z) (s : State) : Completion (State * list Emit) :=
  let cellSize := (JS.Fin (height canvas) / $rows)%js in
  let cellX := JS.floor (JS.Fin x / cellSize) in
  let cellY := JS.floor (JS.Fin y / cellSize) in
  let '(shapes, k) := pushEach 3 (createShape random x y) (shapesRef s) (draws s) in
  let '(particles, k) := pushEach 2 (createParticle random x y) (particlesRef s) k in
  let volume := volumeAt y canvas in
  let spawned audio last cells :=
    {| shapesRef := shapes; particlesRef := particles;
       audioContextRef := audio; lastSoundTimeRef := last;
       cellHighlightsRef := cells; cellSizeRef := cellSize;
       columns := columns s; noteColsRef := noteColsRef s;
       noteRowsRef := noteRowsRef s; totalNotesRef := totalNotesRef s;
       scaleRef := scaleRef s; canvas := Oriented.canvas s; draws := k |} in
  let quiet :=
    spawned (audioContextRef s) (lastSoundTimeRef s) (cellHighlightsRef s) in
  if silentRow cellY then Normal (quiet, [])
  else if drumColumn (columns s) cellX then
    if elapsed100 currentTime (lastSoundTimeRef s) then
      match playDrum window (audioContextRef s) volume with
      | Normal (audio, out) =>
          Normal (spawned audio currentTime (cellHighlightsRef s),
                  playDrumCall volume :: out)
      | Throw (audio, out) =>
          Throw (spawned audio (lastSoundTimeRef s) (cellHighlightsRef s),
                 playDrumCall volume :: out)
      end
    else Normal (quiet, [])
  else if noteRegion (columns s) cellX cellY then
    let noteIndex := noteIndexOf (columns s) cellX cellY in
    if (noteIndex <? JS.len (scaleRef s))%js then
      let frequency := JS.get (scaleRef s) noteIndex in
      let cells :=
        JS.set (cellHighlightsRef s) (cellIndexOf (columns s) cellX cellY)
               (flash currentTime) in
      if elapsed100 currentTime (lastSoundTimeRef s) then
        let '(audio, out) :=
          playSound window (audioContextRef s) frequency volume in
        Normal (spawned audio currentTime cells,
                playSoundCall frequency volume :: out)
      else Normal (spawned (audioContextRef s) (lastSoundTimeRef s) cells, [])
    else Normal (quiet, [])
  else Normal (quiet, []).

End Callbacks.

Definition MAX_SHAPES : nat := 100.
Definition MAX_PARTICLES : nat := 100.

(** [animate()]; resizing the highlight array to [rows * columns] throws
    when that is no array length, before the pools are touched. *)
Definition animate (now : Z) (s : State) : Completion State :=
  let cellSize := (JS.Fin (height (canvas s)) / $rows)%js in
  let after cells shapes particles :=
    {| shapesRef := shapes; particlesRef := particles;
       audioContextRef := audioContextRef s;
       lastSoundTimeRef := lastSoundTimeRef s;
       cellHighlightsRef := cells; cellSizeRef := cellSize;
       columns := columns s; noteColsRef := noteColsRef s;
       noteRowsRef := noteRowsRef s; totalNotesRef := totalNotesRef s;
       scaleRef := scaleRef s; canvas := canvas s; draws := draws s |} in
  match drawCellHighlights (JS.of_Z (rows * columns s)) now
          (cellHighlightsRef s) with
  | None => Throw (after (cellHighlightsRef s) (shapesRef s) (particlesRef s))
  | Some cells =>
      Normal (after cells
                (trim MAX_SHAPES (stepShapes (shapesRef s)))
                (trim MAX_PARTICLES (stepParticles 0.05 (particlesRef s))))
  end.

(** What happens to the page: the window is resized, the pointer moves, a
    frame is due. *)
Inductive Event : Type :=
| resize (window : Window)
| interaction (x y : Q) (currentTime : Z)
| frame (now : Z).

(** The page after the mount effect and any number of events, with the
    window it is shown in.  The mount effect lays the canvas out and draws
    the first frame; a resize replaces the window and lays out again. *)
Inductive reachable (random : nat → Q) : Window → State → Prop :=
| reach_mount window now :
    reachable random window
      (outcome (animate now (updateLayoutAndScale window initial)))
| reach_resize window s window' :
    reachable random window s →
    reachable random window' (updateLayoutAndScale window' s)
| reach_interaction window s x y currentTime :
    reachable random window s →
    reachable random window
      (fst (outcome (handleInteractionLogic random window x y (canvas s)
                       currentTime s)))
| reach_frame window s now :
    reachable random window s →
    reachable random window (outcome (animate now s)).

End Oriented.

(** ** The grid that fills the canvas: 8 rows, every cell a note *)

Module Fill.

Definition rows : Z := 8.

Record State : Type := mkState {
  shapesRef : list Shape.t;
  particlesRef : list Particle.t;
  audioContextRef : bool;
  lastSoundTimeRef : Z;
  cellHighlightsRef : list (option CellHighlight.t);
  cellSizeRef : JS.num;
  columnsRef : JS.num;
  draws : nat }.

Definition initial : State :=
  {| shapesRef := []; particlesRef := []; audioContextRef := false;
     lastSoundTimeRef := 0; cellHighlightsRef := [];
     cellSizeRef := $150%js; columnsRef := $0%js; draws := 0 |}.

(** [generateScale(totalCells)]: [None] is the [RangeError] of an array
    length that cannot be. *)
Definition generateScale (totalCells : JS.num) : option (list R) :=
  generateScale <$> JS.array_length totalCells.

(** The column count and the cell under the pointer. *)
Definition columnsOf (canvas : Canvas) : JS.num :=
  JS.floor (JS.Fin (width canvas) / (JS.Fin (height canvas) / $rows))%js.

Definition cellAt (x y : Q) (canvas : Canvas) : JS.num * JS.num :=
  let cellSize := (JS.Fin (height canvas) / $rows)%js in
  (JS.floor (JS.Fin x / cellSize), JS.floor (JS.Fin y / cellSize)).

Definition inGrid (columns cellX cellY : JS.num) : bool :=
  (cellX >=? $0)%js && (cellX <? columns)%js
  && (cellY >=? $0)%js && (cellY <? $rows)%js.

Section Callbacks.
Variable random : nat → Q.
Variable window : Window.

(** [handleInteractionLogic(x, y, canvas)] *)
Definition handleInteractionLogic (x y : Q) (canvas : Canvas)
  (currentTime : Z) (s : State) : Completion (State * list Emit) :=
  let cellSize := (JS.Fin (height canvas) / $rows)%js in
  let columns := JS.floor (JS.Fin (width canvas) / cellSize) in
  let totalCells := ($rows * columns)%js in
  let laidOut shapes particles audio last cells k :=
    {| shapesRef := shapes; particlesRef := particles;
       audioContextRef := audio; lastSoundTimeRef := last;
       cellHighlightsRef := cells; cellSizeRef := cellSize;
       columnsRef := columns; draws := k |} in
  match generateScale totalCells with
  | None =>
      Throw (laidOut (shapesRef s) (particlesRef s) (audioContextRef s)
               (lastSoundTimeRef s) (cellHighlightsRef s) (draws s), [])
  | Some scale =>
      let cellX := JS.floor (JS.Fin x / cellSize) in
      let cellY := JS.floor (JS.Fin y / cellSize) in
      let '(shapes, k) :=
        pushEach 3 (createShape random x y) (shapesRef s) (draws s) in
      let '(particles, k) :=
        pushEach 2 (createParticle random x y) (particlesRef s) k in
      let quiet :=
        laidOut shapes particles (audioContextRef s) (lastSoundTimeRef s)
          (cellHighlightsRef s) k in
      if inGrid columns cellX cellY then
        let cellIndex := (cellY * columns + cellX)%js in
        if (cellIndex <? JS.len scale)%js then
          let frequency := JS.get scale cellIndex in
          let volume := volumeAt y canvas in
          let cells :=
            JS.set (cellHighlightsRef s) cellIndex (flash currentTime) in
          if elapsed100 currentTime (lastSoundTimeRef s) then
            let '(audio, out) :=
              playSound window (audioContextRef s) frequency volume in
            Normal (laidOut shapes particles audio currentTime cells k,
                    playSoundCall frequency volume :: out)
          else
            Normal (laidOut shapes particles (audioContextRef s)
                      (lastSoundTimeRef s) cells k, [])
        else Normal (quiet, [])
      else Normal (quiet, [])
  end.

End Callbacks.

Definition MAX_SHAPES : nat := 100.
Definition MAX_PARTICLES : nat := 100.

(** [animate()]; a grid whose cell count is no array length makes
    [drawCellHighlights] throw before the pools are touched. *)
Definition animate (canvas : Canvas) (now : Z) (s : State)
  : Completion State :=
  let cellSize := (JS.Fin (height canvas) / $rows)%js in
  let columns := JS.floor (JS.Fin (width canvas) / cellSize) in
  let after cells shapes particles :=
    {| shapesRef := shapes; particlesRef := particles;
       audioContextRef := audioContextRef s;
       lastSoundTimeRef := lastSoundTimeRef s;
       cellHighlightsRef := cells; cellSizeRef := cellSize;
       columnsRef := columns; draws := draws s |} in
  match drawCellHighlights ($rows * columns)%js now (cellHighlightsRef s) with
  | None => Throw (after (cellHighlightsRef s) (shapesRef s) (particlesRef s))
  | Some cells =>
      Normal (after cells
                (trim MAX_SHAPES (stepShapes (shapesRef s)))
                (trim MAX_PARTICLES (stepParticles 0.05 (particlesRef s))))
  end.

(** What happens to the page on a canvas of a given size: the pointer
    moves, a frame is due. *)
Inductive Event : Type :=
| interaction (x y : Q) (currentTime : Z)
| frame (now : Z).

Definition step (random : nat → Q) (window : Window) (canvas : Canvas)
  (s : State) (e : Event) : State :=
  match e with
  | interaction x y currentTime =>
      stateAfter (handleInteractionLogic random window x y canvas currentTime s)
  | frame now => outcome (animate canvas now s)
  end.

Definition run (random : nat → Q) (window : Window) (canvas : Canvas)
  (events : list Event) (s : State) : State :=
  foldl (step random window canvas) s events.

(** Two pointer moves and a frame, every 40 ms from [start] on. *)
Definition rounds (n : nat) (start : Z) : list Event :=
  mjoin ((λ i : nat,
            let t := start + 40 * Z.of_nat i in
            [interaction 150 150 t; interaction 170 150 (t + 17);
             frame (t + 33)]) <$> seq 0 n).

End Fill.

(** ** The first grid: cells of 150 pixels, no highlights *)

Module Trail.

Definition cellSize : JS.num := $150%js.

Record State : Type := mkState {
  shapesRef : list Shape.t;
  particlesRef : list Particle.t;
  audioContextRef : bool;
  lastSoundTimeRef : Z;
  draws : nat }.

Definition initial : State :=
  {| shapesRef := []; particlesRef := []; audioContextRef := false;
     lastSoundTimeRef := 0; draws := 0 |}.

Definition generateScale (totalCells : JS.num) : option (list R) :=
  generateScale <$> JS.array_length totalCells.

Section Callbacks.
Variable random : nat → Q.
Variable window : Window.

(** [createParticle(x, y)] of this variant: larger, and as fast down as
    across. *)
Definition createParticle (x y : Q) (k : nat) : Particle.t * nat :=
  ({| Particle.x := x;
      Particle.y := y;
      Particle.size := random k * 20 + 10;
      Particle.vx := (random (k + 1) - 0.5) * 2;
      Particle.vy := (random (k + 2) - 0.5) * 2;
      Particle.alpha := 1;
      Particle.life := 1;
      Particle.angle := random (k + 3) * 360 |}%Q,
   (k + 4)%nat).

(** The column count, the rows that sound, the cell under the pointer. *)
Definition columnsOf (canvas : Canvas) : JS.num :=
  JS.floor (JS.Fin (width canvas) / cellSize).

Definition effectiveRowsOf (canvas : Canvas) : JS.num :=
  JS.max $0 (JS.floor (JS.Fin (height canvas) / cellSize) - $3)%js.

Definition cellAt (x y : Q) : JS.num * JS.num :=
  (JS.floor (JS.Fin x / cellSize), JS.floor (JS.Fin y / cellSize)).

Definition inNotes (columns effectiveRows cellX cellY : JS.num) : bool :=
  (cellY <? effectiveRows)%js && (cellY >=? $0)%js
  && (cellX >=? $0)%js && (cellX <? columns)%js.

(** The callback handed to [debounce], on the event coordinates [x], [y]
    relative to the canvas. *)
Definition debouncedInteractionHandler (x y : Q) (canvas : Canvas)
  (currentTime : Z) (s : State) : Completion (State * list Emit) :=
  let columns := JS.floor (JS.Fin (width canvas) / cellSize) in
  let rows := JS.floor (JS.Fin (height canvas) / cellSize) in
  let effectiveRows := JS.max $0 (rows - $3)%js in
  let totalCellsForNotes := (columns * effectiveRows)%js in
  match generateScale totalCellsForNotes with
  | None => Throw (s, [])
  | Some scale =>
      let cellX := JS.floor (JS.Fin x / cellSize) in
      let cellY := JS.floor (JS.Fin y / cellSize) in
      let '(shapes, k) :=
        pushEach 3 (createShape random x y) (shapesRef s) (draws s) in
      let '(particles, k) :=
        pushEach 3 (createParticle x y) (particlesRef s) k in
      let spawned audio last :=
        {| shapesRef := shapes; particlesRef := particles;
           audioContextRef := audio; lastSoundTimeRef := last;
           draws := k |} in
      let quiet := spawned (audioContextRef s) (lastSoundTimeRef s) in
      if inNotes columns effectiveRows cellX cellY then
        let cellIndex := (cellY * columns + cellX)%js in
        if (cellIndex <? JS.len scale)%js then
          let frequency := JS.get scale cellIndex in
          let volume := volumeAt y canvas in
          if elapsed100 currentTime (lastSoundTimeRef s) then
            let '(audio, out) :=
              playSound window (audioContextRef s) frequency volume in
            Normal (spawned audio currentTime,
                    playSoundCall frequency volume :: out)
          else Normal (quiet, [])
        else Normal (quiet, [])
      else Normal (quiet, [])
  end.

End Callbacks.

Definition MAX_SHAPES : nat := 100.
Definition MAX_PARTICLES : nat := 200.

(** [animate()] *)
Definition animate (s : State) : State :=
  {| shapesRef := trim MAX_SHAPES (stepShapes (shapesRef s));
     particlesRef := trim MAX_PARTICLES (stepParticles 0.2 (particlesRef s));
     audioContextRef := audioContextRef s;
     lastSoundTimeRef := lastSoundTimeRef s;
     draws := draws s |}.

End Trail.

(** ** The particle-only grid: cells of 100 pixels *)

Module Sparks.

Definition cellSize : JS.num := $100%js.

Record State : Type := mkState {
  particlesRef : list Particle.t;
  audioContextRef : bool;
  lastSoundTimeRef : Z;
  draws : nat }.

Definition initial : State :=
  {| particlesRef := []; audioContextRef := false;
     lastSoundTimeRef := 0; draws := 0 |}.

Definition generateScale (totalCells : JS.num) : option (list R) :=
  generateScale <$> JS.array_length totalCells.

Definition columnsOf (canvas : Canvas) : JS.num :=
  JS.floor (JS.Fin (width canvas) / cellSize).

Definition rowsOf (canvas : Canvas) : JS.num :=
  JS.floor (JS.Fin (height canvas) / cellSize).

Definition cellAt (x y : Q) : JS.num * JS.num :=
  (JS.floor (JS.Fin x / cellSize), JS.floor (JS.Fin y / cellSize)).

(** [cellX < 0 || cellX >= columns || cellY < 0 || cellY >= rows] *)
Definition outside (columns rows cellX cellY : JS.num) : bool :=
  (cellX <? $0)%js || (cellX >=? columns)%js
  || (cellY <? $0)%js || (cellY >=? rows)%js.

Section Callbacks.
Variable random : nat → Q.
Variable window : Window.

Definition createParticle (x y : Q) (k : nat) : Particle.t * nat :=
  ({| Particle.x := x;
      Particle.y := y;
      Particle.size := random k * 20 + 10;
      Particle.vx := (random (k + 1) - 0.5) * 2;
      Particle.vy := (random (k + 2) - 0.5) * 2;
      Particle.alpha := 1;
      Particle.life := 1;
      Particle.angle := random (k + 3) * 360 |}%Q,
   (k + 4)%nat).

(** The callback handed to [debounce]. *)
Definition debouncedInteractionHandler (x y : Q) (canvas : Canvas)
  (currentTime : Z) (s : State) : Completion (State * list Emit) :=
  let columns := JS.floor (JS.Fin (width canvas) / cellSize) in
  let rows := JS.floor (JS.Fin (height canvas) / cellSize) in
  let totalCells := (columns * rows)%js in
  match generateScale totalCells with
  | None => Throw (s, [])
  | Some scale =>
      let cellX := JS.floor (JS.Fin x / cellSize) in
      let cellY := JS.floor (JS.Fin y / cellSize) in
      if outside columns rows cellX cellY then Normal (s, [])
      else
        let cellIndex := (cellY * columns + cellX)%js in
        let finalVolume := volumeAt y canvas in
        let '(particles, k) :=
          pushEach 5 (createParticle x y) (particlesRef s) (draws s) in
        if elapsed100 currentTime (lastSoundTimeRef s) then
          let frequency := JS.get scale cellIndex in
          let '(audio, out) :=
            playSound window (audioContextRef s) frequency finalVolume in
          Normal ({| particlesRef := particles; audioContextRef := audio;
                     lastSoundTimeRef := currentTime; draws := k |},
                  playSoundCall frequency finalVolume :: out)
        else
          Normal ({| particlesRef := particles;
                     audioContextRef := audioContextRef s;
                     lastSoundTimeRef := lastSoundTimeRef s; draws := k |},
                  [])
  end.

End Callbacks.

Definition MAX_PARTICLES : nat := 200.

(** [animate()] *)
Definition animate (s : State) : State :=
  {| particlesRef := trim MAX_PARTICLES (stepParticles 0.2 (particlesRef s));
     audioContextRef := audioContextRef s;
     lastSoundTimeRef := lastSoundTimeRef s;
     draws := draws s |}.

End Sparks.

(** ** The page of the fixed grid over time *)

Module FixedPage.

(** What happens to the page on a canvas of a given size: the pointer
    moves, a frame is due. *)
Inductive Event : Type :=
| pointer (x y : Q) (currentTime : Z)
| tick (now : Z).

(** One event; a pointer move is logged with its time and what it
    emitted. *)
Definition step (random : nat → Q) (window : Window) (canvas : Canvas)
  (s : Fixed.State) (e : Event) : Fixed.State * list (Z * list Emit) :=
  match e with
  | pointer x y currentTime =>
      let r :=
        Fixed.handleInteractionLogic random window x y canvas currentTime s in
      (stateAfter r, [(currentTime, emitted r)])
  | tick now => (Fixed.animate canvas now s, [])
  end.

Fixpoint run (random : nat → Q) (window : Window) (canvas : Canvas)
  (events : list Event) (s : Fixed.State)
  : Fixed.State * list (Z * list Emit) :=
  match events with
  | [] => (s, [])
  | e :: events' =>
      let '(s', log) := step random window canvas s e in
      let '(s'', log') := run random window canvas events' s' in
      (s'', log ++ log')
  end.

(** The times of the pointer moves that started an oscillator. *)
Definition firings (log : list (Z * list Emit)) : list Z :=
  fst <$> List.filter
            (λ entry, match tones (snd entry) with [] => false | _ => true end)
            log.

(** The cell in which [drawCellHighlights] draws slot [i]:
    [i % columns] and [Math.floor(i / columns)]. *)
Definition highlightCell (i : nat) : Z * Z :=
  (Z.of_nat i mod Fixed.columns, Z.of_nat i / Fixed.columns).

End FixedPage.

(** ** The page of the grid that fills the canvas over time *)

Module FillPage.

(** One event of the page, logged as in [FixedPage]. *)
Definition step (random : nat → Q) (window : Window) (canvas : Canvas)
  (s : Fill.State) (e : Fill.Event) : Fill.State * list (Z * list Emit) :=
  match e with
  | Fill.interaction x y currentTime =>
      let r :=
        Fill.handleInteractionLogic random window x y canvas currentTime s in
      (stateAfter r, [(currentTime, emitted r)])
  | Fill.frame now => (outcome (Fill.animate canvas now s), [])
  end.

Fixpoint run (random : nat → Q) (window : Window) (canvas : Canvas)
  (events : list Fill.Event) (s : Fill.State)
  : Fill.State * list (Z * list Emit) :=
  match events with
  | [] => (s, [])
  | e :: events' =>
      let '(s', log) := step random window canvas s e in
      let '(s'', log') := run random window canvas events' s' in
      (s'', log ++ log')
  end.

End FillPage.

(** The time of the last sound fired in a log; [start], the time that
    [lastSoundTimeRef] held before the log began, when none has fired. *)
Definition lastFired (start : Z) (log : list (Z * list Emit)) : Z :=
  default start (last (FixedPage.firings log)).

(** Reading slot [i] of an array with holes: a hole reads as
    [undefined], like an index past the end. *)
Definition readSlot {A} (arr : list (option A)) (i : JS.num) : option A :=
  match JS.get arr i with Some (Some v) => Some v | _ => None end.

(** A shape has no more life left than another. *)
Definition olderShape (a b : Shape.t) : Prop :=
  (Shape.life a <= Shape.life b)%Q.

Definition olderParticle (a b : Particle.t) : Prop :=
  (Particle.life a <= Particle.life b)%Q.

(** The gain of an oscillator, if the emission is one. *)
Definition gainOf (e : Emit) : option Q :=
  match e with tone _ _ gain _ => Some gain | _ => None end.

(** * Properties *)

(** ** Numbers and arrays *)

Arguments JS.add : simpl never.
Arguments JS.sub : simpl never.
Arguments JS.mul : simpl never.
Arguments JS.div : simpl never.
Arguments JS.max : simpl never.
Arguments JS.compare : simpl never.
Arguments JS.as_index : simpl never.
Arguments volumeAt : simpl never.

Lemma Qred_inject_Z (z : Z) : Qred (inject_Z z) = inject_Z z.
Proof.
  unfold Qred, inject_Z.
  pose proof (Z.ggcd_gcd z 1) as Hg.
  pose proof (Z.ggcd_correct_divisors z 1) as Hd.
  destruct (Z.ggcd z 1) as [g [aa bb]]. simpl in *.
  rewrite Z.gcd_1_r in Hg. subst g. destruct Hd as [Ha Hb].
  replace aa with z by lia. replace bb with 1 by lia. reflexivity.
Qed.

Lemma of_Z_add (a b : Z) : ($a + $b = $(a + b))%js.
Proof.
  unfold JS.add, JS.of_Z. f_equal.
  rewrite <- (Qred_inject_Z (a + b)). apply Qred_complete.
  by rewrite inject_Z_plus.
Qed.

Lemma of_Z_mul (a b : Z) : ($a * $b = $(a * b))%js.
Proof.
  unfold JS.mul, JS.of_Z. f_equal.
  rewrite <- (Qred_inject_Z (a * b)). apply Qred_complete.
  by rewrite inject_Z_mult.
Qed.

Lemma of_Z_sub (a b : Z) : ($a - $b = $(a - b))%js.
Proof.
  unfold JS.sub, JS.add, JS.neg, JS.of_Z. f_equal.
  rewrite <- (Qred_inject_Z (a - b)). apply Qred_complete.
  rewrite Qred_correct. unfold Z.sub.
  by rewrite inject_Z_plus, inject_Z_opp.
Qed.

Lemma as_index_of_Z (z : Z) : 0 ≤ z → JS.as_index $z = Some (Z.to_nat z).
Proof.
  intros Hz. unfold JS.as_index, JS.of_Z.
  rewrite Qfloor_Z.
  rewrite (proj2 (Qeq_bool_iff _ _)) by reflexivity.
  rewrite (proj2 (Z.leb_le _ _)) by done. done.
Qed.

Lemma get_set_same {A} (arr : list (option A)) (i : JS.num) (n : nat) v :
  JS.as_index i = Some n → JS.get (JS.set arr i v) i = Some (Some v).
Proof.
  intros Hi. unfold JS.get, JS.set. rewrite Hi. simpl.
  apply list_lookup_insert_eq.
  rewrite length_app, length_replicate. lia.
Qed.

Lemma compare_of_Z (a b : Z) : JS.compare $a $b = Some (a ?= b).
Proof.
  unfold JS.compare, JS.of_Z. f_equal.
  unfold Qcompare, inject_Z. simpl. by rewrite !Z.mul_1_r.
Qed.

Lemma floor_of_Z_or_not_finite (a : JS.num) :
  (∃ z, JS.floor a = JS.of_Z z) ∨ JS.floor a = JS.PInf
  ∨ JS.floor a = JS.NInf ∨ JS.floor a = JS.NaN.
Proof. destruct a; simpl; eauto. Qed.

(** ** C1: the scale *)

Lemma tabulate_length {A} n (f : nat → A) : length (JS.tabulate n f) = n.
Proof. unfold JS.tabulate. by rewrite length_fmap, length_seq. Qed.

Lemma tabulate_lookup {A} n (f : nat → A) (i : nat) :
  (i < n)%nat → JS.tabulate n f !! i = Some (f i).
Proof.
  intros Hi. unfold JS.tabulate.
  rewrite list_lookup_fmap, lookup_seq_lt by done. done.
Qed.

Lemma pitch_0 : pitch 0 = 130.81%R.
Proof.
  unfold pitch, baseFreq. simpl INR.
  replace (0 / 12)%R with 0%R by lra.
  rewrite Rpower_O by lra. lra.
Qed.

Lemma pitch_S i : pitch (S i) = (pitch i * Rpower 2 (1 / 12))%R.
Proof.
  unfold pitch. rewrite S_INR.
  replace ((INR i + 1) / 12)%R with (INR i / 12 + 1 / 12)%R by lra.
  rewrite Rpower_plus. lra.
Qed.

(** C1. For every index [i] below [n], [generateScale n] holds
    [baseFreq * 2^(i/12)] at [i], with [baseFreq = 130.81], and has exactly
    [n] entries: it is the equal-tempered chromatic sequence that starts at
    the base pitch and rises by the factor [2^(1/12)] from one cell to the
    next. *)
Theorem generateScale_equal_tempered (n i : nat) :
  (i < n)%nat →
  generateScale n !! i = Some (130.81 * Rpower 2 (INR i / 12))%R
  ∧ length (generateScale n) = n
  ∧ generateScale n !! 0%nat = Some 130.81%R
  ∧ ((S i < n)%nat →
     ∃ f g, generateScale n !! i = Some f ∧ generateScale n !! S i = Some g
            ∧ g = (f * Rpower 2 (1 / 12))%R).
Proof.
  intros Hi. unfold generateScale.
  repeat split.
  - by rewrite tabulate_lookup.
  - apply tabulate_length.
  - rewrite tabulate_lookup by lia. by rewrite pitch_0.
  - intros HS. exists (pitch i), (pitch (S i)).
    rewrite !tabulate_lookup by lia. auto using pitch_S.
Qed.

Lemma generateScale_equal_tempered_witness :
  generateScale 70 !! 69%nat = Some (130.81 * Rpower 2 (INR 69 / 12))%R
  ∧ length (generateScale 70) = 70%nat.
Proof.
  destruct (generateScale_equal_tempered 70 69) as (H1 & H2 & _); [lia|].
  split; [exact H1 | exact H2].
Defined.

(** ** Spawning *)

Lemma pushEach_app {A} n (create : nat → A * nat) pool k :
  ∃ new, fst (pushEach n create pool k) = pool ++ new ∧ length new = n.
Proof.
  revert pool k. induction n as [|n IH]; intros pool k; simpl.
  - exists []. by rewrite app_nil_r.
  - destruct (create k) as [a k'].
    destruct (IH (pool ++ [a]) k') as (new & Hnew & Hlen).
    exists (a :: new). rewrite Hnew, <- app_assoc. simpl. auto.
Qed.

(** ** C2: the scenario on the 1600 by 700 canvas *)

Lemma Fixed_scale_0 s :
  Fixed.scaleRef s = Fixed.generateScale →
  JS.get (Fixed.scaleRef s) $0 = Some 130.81%R.
Proof.
  intros ->. unfold JS.get. rewrite as_index_of_Z by done.
  unfold Fixed.generateScale, generateScale.
  change (Z.to_nat 0) with 0%nat. cbn [mbind option_bind].
  rewrite tabulate_lookup by (vm_compute; lia). by rewrite pitch_0.
Qed.

(** C2. On a canvas 1600 wide and 700 high the handler of the fixed grid
    computes a cell size of 100; the interaction at (150, 150) falls in cell
    (1, 1), a note cell, whose note index is 0; with the scale in place and
    more than 100 ms since the last sound, [playSound] is called with
    130.81 Hz, and where audio is available the oscillator starts at that
    frequency. *)
Theorem click_150_150_plays_base_pitch
  (random : nat → Q) (window : Window) (currentTime : Z) (s : Fixed.State) :
  Fixed.scaleRef s = Fixed.generateScale →
  100 < currentTime - Fixed.lastSoundTimeRef s →
  let canvas := mkCanvas 1600 700 in
  let result :=
    Fixed.handleInteractionLogic random window 150 150 canvas currentTime s in
  Fixed.cellSizeRef (fst (outcome result)) = JS.of_Z 100
  ∧ Fixed.cellAt 150 150 canvas = (JS.of_Z 1, JS.of_Z 1)
  ∧ Fixed.silentRow $1 = false
  ∧ Fixed.drumColumn $1 = false
  ∧ Fixed.noteRegion $1 $1 = true
  ∧ Fixed.noteIndexOf $1 $1 = JS.of_Z 0
  ∧ (∃ volume rest,
       snd (outcome result)
       = playSoundCall (Some 130.81%R) volume :: rest)
  ∧ (isSecureContext window = true →
     acquireContext window (Fixed.audioContextRef s) = ready →
     ∃ gain,
       snd (outcome result)
       = [playSoundCall (Some 130.81%R) (JS.Fin gain);
          tone triangle 130.81 gain 0.5]).
Proof.
  intros Hscale Hlate canvas result.
  assert (Hcell : Fixed.cellAt 150 150 canvas = (JS.of_Z 1, JS.of_Z 1))
    by (vm_compute; reflexivity).
  assert (Hvol : volumeAt 150 canvas = JS.Fin (113 # 140))
    by (vm_compute; reflexivity).
  assert (Hopen : elapsed100 currentTime (Fixed.lastSoundTimeRef s) = true)
    by (unfold elapsed100; apply Z.ltb_lt; lia).
  pose proof (Fixed_scale_0 s Hscale) as Hfreq.
  subst result. unfold Fixed.handleInteractionLogic.
  change (JS.Fin (height canvas) / JS.of_Z Fixed.rows)%js
    with (JS.of_Z 100).
  change (JS.floor (JS.Fin 150 / $100)) with (JS.of_Z 1).
  rewrite Hvol, Hopen.
  destruct (pushEach 3 _ _ _) as [shapes k].
  destruct (pushEach 2 _ _ _) as [particles k'].
  change (Fixed.silentRow $1) with false.
  change (Fixed.drumColumn $1) with false.
  change (Fixed.noteRegion $1 $1) with true.
  change (Fixed.noteIndexOf $1 $1) with (JS.of_Z 0).
  rewrite Hfreq. cbv iota.
  repeat split.
  - destruct (playSound _ _ _ _); reflexivity.
  - destruct (playSound _ _ _ _) as [a o]. simpl. eauto.
  - intros Hsec Hready. exists (113 # 140)%Q.
    unfold playSound. rewrite Hsec, Hready. reflexivity.
Qed.

Lemma click_150_150_plays_base_pitch_witness :
  ∃ volume rest,
    emitted
      (Fixed.handleInteractionLogic (λ _, 0.5%Q)
         (mkWindow true (Some constructs) 1600 700 1)
         150 150 (mkCanvas 1600 700) 1000 (Fixed.mount Fixed.initial))
    = playSoundCall (Some 130.81%R) volume :: rest.
Proof.
  destruct (click_150_150_plays_base_pitch (λ _, 0.5%Q)
              (mkWindow true (Some constructs) 1600 700 1) 1000
              (Fixed.mount Fixed.initial))
    as (_ & _ & _ & _ & _ & _ & H & _).
  - reflexivity.
  - simpl. lia.
  - exact H.
Defined.

(** ** Comparisons and cells *)

Lemma leb_of_Z (a b : Z) : ($a <=? $b)%js = (a <=? b)%Z.
Proof.
  unfold JS.leb. rewrite compare_of_Z. unfold Z.leb.
  by destruct (a ?= b).
Qed.

Lemma geb_of_Z (a b : Z) : ($a >=? $b)%js = (b <=? a)%Z.
Proof. apply leb_of_Z. Qed.

Lemma ltb_of_Z (a b : Z) : ($a <? $b)%js = (a <? b)%Z.
Proof.
  unfold JS.ltb. rewrite compare_of_Z. unfold Z.ltb.
  by destruct (a ?= b).
Qed.

Lemma eqb_of_Z (a b : Z) : ($a =? $b)%js = (a =? b)%Z.
Proof.
  unfold JS.eqb. rewrite compare_of_Z, Z.eqb_compare.
  by destruct (a ?= b).
Qed.

(** The cell size [canvas.height / rows] is always a finite number. *)
Lemma cellSize_finite (h : Q) (r : Z) :
  r ≠ 0 → (JS.Fin h / $r)%js = JS.Fin (Qred (h / inject_Z r)).
Proof.
  intros Hr. unfold JS.div, JS.of_Z.
  destruct (inject_Z r ?= 0)%Q eqn:Hc; try done.
  apply Qeq_alt in Hc. exfalso. apply Hr.
  unfold Qeq, inject_Z in Hc. simpl in Hc. lia.
Qed.

(** A pointer that lands in a numbered cell sits on a canvas whose height
    is not zero. *)
Lemma numbered_cell_height (x h : Q) (r z : Z) :
  r ≠ 0 →
  JS.floor (JS.Fin x / (JS.Fin h / $r))%js = JS.of_Z z → ¬ (h == 0)%Q.
Proof.
  intros Hr Hz Hh. rewrite cellSize_finite in Hz by done.
  unfold JS.div in Hz.
  assert (Hc : (Qred (h / inject_Z r) ?= 0)%Q = Eq).
  { apply Qeq_alt. rewrite Qred_correct, Hh. reflexivity. }
  rewrite Hc in Hz. by destruct (x ?= 0)%Q.
Qed.

Lemma volumeAt_finite (y : Q) (canvas : Canvas) :
  ¬ (height canvas == 0)%Q → ∃ v, volumeAt y canvas = JS.Fin v.
Proof.
  intros Hh. unfold volumeAt, JS.div.
  destruct (height canvas ?= 0)%Q eqn:Hc.
  - apply Qeq_alt in Hc. contradiction.
  - unfold JS.max, JS.sub, JS.mul, JS.add, JS.neg, JS.of_Z.
    destruct (Qle_bool _ _); eauto.
  - unfold JS.max, JS.sub, JS.mul, JS.add, JS.neg, JS.of_Z.
    destruct (Qle_bool _ _); eauto.
Qed.

(** ** Case analysis of a handler *)

Ltac split_handler :=
  repeat match goal with
    | |- context [pushEach ?n ?c ?p ?k] =>
        destruct (pushEach n c p k) as [? ?] eqn:?
    | |- context [match playDrum ?w ?a ?v with _ => _ end] =>
        let E := fresh "Hdrum" in
        unfold playDrum;
        destruct (acquireContext w a) eqn:E; [destruct v | |]
    | |- context [playSound ?w ?a ?f ?v] =>
        unfold playSound;
        destruct (isSecureContext w) eqn:?; cbn [negb];
        [destruct (acquireContext w a) eqn:?; [destruct f, v | |] |]
    | |- context [if ?b then _ else _] => destruct b eqn:?
    end.

(** ** C3: drum columns *)

Lemma Fixed_drum_column_no_note random window x y canvas t s :
  Fixed.drumColumn (fst (Fixed.cellAt x y canvas)) = true →
  notes (emitted (Fixed.handleInteractionLogic random window x y canvas t s))
  = [].
Proof.
  unfold Fixed.cellAt, Fixed.handleInteractionLogic. cbn [fst].
  intros Hdrum. rewrite Hdrum.
  split_handler; reflexivity.
Qed.

Lemma Oriented_drum_column_no_note random window x y canvas t s :
  Oriented.drumColumn (Oriented.columns s)
    (fst (Oriented.cellAt x y canvas)) = true →
  notes (emitted
           (Oriented.handleInteractionLogic random window x y canvas t s))
  = [].
Proof.
  unfold Oriented.cellAt, Oriented.handleInteractionLogic. cbn [fst].
  intros Hdrum. rewrite Hdrum.
  split_handler; reflexivity.
Qed.

(** C3. An interaction whose cell lies in a drum column (column 0 or the
    last column) never calls [playSound] and starts no note oscillator, in
    the fixed grid and in the grid that follows the orientation; what it
    may call is [playDrum].  The interaction at (0, 150) on a canvas 700
    high lands in column 0 and, more than 100 ms after the last sound, calls
    [playDrum] and nothing of the note player. *)
Theorem drum_column_plays_only_drum (random : nat → Q) (window : Window) :
  (∀ x y canvas t s,
     Fixed.drumColumn (fst (Fixed.cellAt x y canvas)) = true →
     notes (emitted
              (Fixed.handleInteractionLogic random window x y canvas t s))
     = [])
  ∧ (∀ x y canvas t s,
       Oriented.drumColumn (Oriented.columns s)
         (fst (Oriented.cellAt x y canvas)) = true →
       notes (emitted
                (Oriented.handleInteractionLogic random window x y canvas t s))
       = [])
  ∧ (∀ w t s,
       100 < t - Fixed.lastSoundTimeRef s →
       Fixed.cellAt 0 150 (mkCanvas w 700) = (JS.of_Z 0, JS.of_Z 1)
       ∧ Fixed.drumColumn $0 = true
       ∧ ∃ rest,
           emitted (Fixed.handleInteractionLogic random window 0 150
                      (mkCanvas w 700) t s)
           = playDrumCall (JS.Fin (113 # 140)) :: rest
           ∧ notes rest = []
           ∧ (acquireContext window (Fixed.audioContextRef s) = ready →
              rest = [tone square 60 (113 # 140) 0.1])).
Proof.
  split; [|split].
  - intros. by apply Fixed_drum_column_no_note.
  - intros. by apply Oriented_drum_column_no_note.
  - intros w t s Hlate.
    assert (Hopen : elapsed100 t (Fixed.lastSoundTimeRef s) = true)
      by (unfold elapsed100; apply Z.ltb_lt; lia).
    split; [reflexivity|]. split; [reflexivity|].
    unfold Fixed.handleInteractionLogic.
    change (JS.Fin (height (mkCanvas w 700)) / JS.of_Z Fixed.rows)%js
      with (JS.of_Z 100).
    change (JS.floor (JS.Fin 0 / $100)) with (JS.of_Z 0).
    change (JS.floor (JS.Fin 150 / $100)) with (JS.of_Z 1).
    change (volumeAt 150 (mkCanvas w 700)) with (JS.Fin (113 # 140)).
    change (Fixed.silentRow $1) with false.
    change (Fixed.drumColumn $0) with true.
    rewrite Hopen. cbv iota.
    destruct (pushEach 3 _ _ _) as [shapes k].
    destruct (pushEach 2 _ _ _) as [particles k'].
    unfold playDrum.
    destruct (acquireContext window (Fixed.audioContextRef s));
      (eexists; split; [reflexivity|]; split; [reflexivity|]; done).
Qed.

Lemma drum_column_plays_only_drum_witness :
  notes (emitted
           (Fixed.handleInteractionLogic (λ _, 0.5%Q)
              (mkWindow true (Some constructs) 1600 700 1)
              1599 350 (mkCanvas 1600 700) 1000 (Fixed.mount Fixed.initial)))
  = []
  ∧ ∃ rest,
      emitted (Fixed.handleInteractionLogic (λ _, 0.5%Q)
                 (mkWindow true (Some constructs) 1600 700 1)
                 0 150 (mkCanvas 1600 700) 1000 (Fixed.mount Fixed.initial))
      = playDrumCall (JS.Fin (113 # 140)) :: rest.
Proof.
  destruct (drum_column_plays_only_drum (λ _, 0.5%Q)
              (mkWindow true (Some constructs) 1600 700 1))
    as (Hfixed & _ & Hscene).
  split.
  - apply Hfixed. vm_compute. reflexivity.
  - destruct (Hscene 1600%Q 1000 (Fixed.mount Fixed.initial))
      as (_ & _ & rest & Hrest & _); [simpl; lia|].
    exists rest. exact Hrest.
Defined.

(** ** C4: the rate limit *)

Lemma Fixed_too_soon random window x y canvas t s :
  elapsed100 t (Fixed.lastSoundTimeRef s) = false →
  let r := Fixed.handleInteractionLogic random window x y canvas t s in
  emitted r = []
  ∧ Fixed.lastSoundTimeRef (stateAfter r) = Fixed.lastSoundTimeRef s.
Proof.
  intros Hclosed. unfold Fixed.handleInteractionLogic. rewrite Hclosed.
  split_handler; done.
Qed.

Lemma Fixed_single_tone random window x y canvas t s :
  (length (tones (emitted
     (Fixed.handleInteractionLogic random window x y canvas t s))) ≤ 1)%nat.
Proof.
  unfold Fixed.handleInteractionLogic.
  split_handler; simpl; lia.
Qed.

Lemma Fixed_tone_stamps random window x y canvas t s :
  let r := Fixed.handleInteractionLogic random window x y canvas t s in
  tones (emitted r) ≠ [] →
  Fixed.lastSoundTimeRef (stateAfter r) = t
  ∧ elapsed100 t (Fixed.lastSoundTimeRef s) = true.
Proof.
  unfold Fixed.handleInteractionLogic.
  split_handler; simpl; done.
Qed.

Lemma Fill_too_soon random window x y canvas t s :
  elapsed100 t (Fill.lastSoundTimeRef s) = false →
  let r := Fill.handleInteractionLogic random window x y canvas t s in
  emitted r = []
  ∧ Fill.lastSoundTimeRef (stateAfter r) = Fill.lastSoundTimeRef s.
Proof.
  intros Hclosed. unfold Fill.handleInteractionLogic. rewrite Hclosed.
  destruct (Fill.generateScale _); [|done].
  split_handler; done.
Qed.

Lemma Fill_single_tone random window x y canvas t s :
  (length (tones (emitted
     (Fill.handleInteractionLogic random window x y canvas t s))) ≤ 1)%nat.
Proof.
  unfold Fill.handleInteractionLogic.
  destruct (Fill.generateScale _); [|simpl; lia].
  split_handler; simpl; lia.
Qed.

Lemma Fill_tone_stamps random window x y canvas t s :
  let r := Fill.handleInteractionLogic random window x y canvas t s in
  tones (emitted r) ≠ [] →
  Fill.lastSoundTimeRef (stateAfter r) = t
  ∧ elapsed100 t (Fill.lastSoundTimeRef s) = true.
Proof.
  unfold Fill.handleInteractionLogic.
  destruct (Fill.generateScale _); [|done].
  split_handler; simpl; done.
Qed.

Lemma floor_eqb_numbered (a : JS.num) (k : Z) :
  (JS.floor a =? $k)%js = true → JS.floor a = JS.of_Z k.
Proof.
  destruct (floor_of_Z_or_not_finite a) as [[z ->]|[->|[->| ->]]]; try done.
  rewrite eqb_of_Z. intros ->%Z.eqb_eq. done.
Qed.

Lemma floor_between_numbered (a : JS.num) (lo hi : Z) :
  (JS.floor a >=? $lo)%js && (JS.floor a <=? $hi)%js = true →
  ∃ z, JS.floor a = JS.of_Z z ∧ lo ≤ z ≤ hi.
Proof.
  destruct (floor_of_Z_or_not_finite a) as [[z ->]|[->|[->| ->]]]; try done.
  rewrite geb_of_Z, leb_of_Z. intros [?%Z.leb_le ?%Z.leb_le]%andb_true_iff.
  exists z. split; [done|lia].
Qed.

Lemma Fixed_noteRegion_numbered (a b : JS.num) :
  Fixed.noteRegion (JS.floor a) (JS.floor b) = true →
  ∃ zx zy, JS.floor a = JS.of_Z zx ∧ JS.floor b = JS.of_Z zy
           ∧ 1 ≤ zx ≤ 14 ∧ 1 ≤ zy ≤ 5.
Proof.
  unfold Fixed.noteRegion. rewrite <- andb_assoc.
  intros [Hx Hy]%andb_true_iff.
  destruct (floor_between_numbered _ _ _ Hx) as (zx & -> & ?).
  destruct (floor_between_numbered _ _ _ Hy) as (zy & -> & ?).
  eauto 10.
Qed.

Lemma Fixed_noteRegion_exclusive (a b : JS.num) :
  Fixed.noteRegion (JS.floor a) (JS.floor b) = true →
  Fixed.silentRow (JS.floor b) = false
  ∧ Fixed.drumColumn (JS.floor a) = false.
Proof.
  intros (zx & zy & -> & -> & Hx & Hy)%Fixed_noteRegion_numbered.
  unfold Fixed.silentRow, Fixed.drumColumn. rewrite !eqb_of_Z.
  unfold Fixed.rows, Fixed.columns.
  split; apply orb_false_iff; split; apply Z.eqb_neq; lia.
Qed.

Lemma Fixed_note_frequency s (zx zy : Z) :
  Fixed.scaleRef s = Fixed.generateScale →
  1 ≤ zx ≤ 14 → 1 ≤ zy ≤ 5 →
  JS.get (Fixed.scaleRef s) (Fixed.noteIndexOf $zx $zy)
  = Some (pitch (Z.to_nat ((zy - 1) * 14 + (zx - 1)))).
Proof.
  intros -> Hx Hy. unfold Fixed.noteIndexOf, Fixed.noteCols.
  rewrite !of_Z_sub, of_Z_mul, of_Z_add.
  unfold JS.get. rewrite as_index_of_Z by lia. cbn [mbind option_bind].
  unfold Fixed.generateScale, generateScale.
  apply tabulate_lookup. unfold Fixed.totalNotes, Fixed.noteRows, Fixed.noteCols.
  lia.
Qed.

(** An interaction in a note cell or a drum cell, with the limit passed and
    audio available, starts exactly one oscillator. *)
Lemma Fixed_eligible_tone random window x y canvas t s :
  elapsed100 t (Fixed.lastSoundTimeRef s) = true →
  isSecureContext window = true →
  acquireContext window (Fixed.audioContextRef s) = ready →
  Fixed.scaleRef s = Fixed.generateScale →
  Fixed.silentRow (snd (Fixed.cellAt x y canvas)) = false →
  Fixed.drumColumn (fst (Fixed.cellAt x y canvas))
  || Fixed.noteRegion (fst (Fixed.cellAt x y canvas))
       (snd (Fixed.cellAt x y canvas)) = true →
  ∃ e, tones (emitted
         (Fixed.handleInteractionLogic random window x y canvas t s)) = [e].
Proof.
  intros Hopen Hsec Hready Hscale Hrow Hcell.
  unfold Fixed.cellAt in *. cbn [fst snd] in *.
  unfold Fixed.handleInteractionLogic.
  destruct (pushEach 3 _ _ _) as [shapes k].
  destruct (pushEach 2 _ _ _) as [particles k'].
  rewrite Hrow, Hopen.
  destruct (Fixed.drumColumn _) eqn:Hdrum.
  - assert (∃ z, JS.floor (JS.Fin x / (JS.Fin (height canvas)
                                        / JS.of_Z Fixed.rows))%js = JS.of_Z z)
      as [z Hz].
    { apply orb_true_iff in Hdrum as [H|H];
        apply floor_eqb_numbered in H; eauto. }
    apply numbered_cell_height in Hz; [|done].
    destruct (volumeAt_finite y canvas Hz) as [v ->].
    unfold playDrum. rewrite Hready. simpl. eauto.
  - cbn [orb] in Hcell. rewrite Hcell.
    destruct (Fixed_noteRegion_numbered _ _ Hcell)
      as (zx & zy & Hzx & Hzy & Hx & Hy).
    assert (Hh : ¬ (height canvas == 0)%Q)
      by (eapply numbered_cell_height; [|exact Hzx]; done).
    destruct (volumeAt_finite y canvas Hh) as [v ->].
    rewrite Hzx, Hzy, (Fixed_note_frequency s zx zy) by done.
    unfold playSound. rewrite Hsec, Hready. simpl. eauto.
Qed.

(** Three pointer moves over note cells of the fixed grid, 20 ms apart,
    audio available: the first starts a tone; the second and the third are
    a pair of sound-eligible interactions less than 100 ms apart that
    starts none, so "exactly one tone for every such pair" fails. *)
Lemma eligible_pair_without_tone :
  let window := mkWindow true (Some constructs) 1600 700 1 in
  let canvas := mkCanvas 1600 700 in
  let handle x t s :=
    Fixed.handleInteractionLogic (λ _, 0.5%Q) window x 150 canvas t s in
  let r0 := handle 150%Q 1000 (Fixed.mount Fixed.initial) in
  let r1 := handle 250%Q 1020 (stateAfter r0) in
  let r2 := handle 350%Q 1040 (stateAfter r1) in
  length (tones (emitted r0)) = 1%nat
  ∧ Fixed.noteRegion (fst (Fixed.cellAt 250 150 canvas))
      (snd (Fixed.cellAt 250 150 canvas)) = true
  ∧ Fixed.noteRegion (fst (Fixed.cellAt 350 150 canvas))
      (snd (Fixed.cellAt 350 150 canvas)) = true
  ∧ 1040 - 1020 < 100
  ∧ length (tones (emitted r1 ++ emitted r2)) ≠ 1%nat.
Proof.
  vm_compute. repeat split; try done.
Qed.

(** ** C5: the pools *)

Lemma trim_length {A} (MAX : nat) (pool : list A) :
  (length (trim MAX pool) ≤ MAX)%nat.
Proof.
  unfold trim. destruct (MAX <? length pool)%nat eqn:E.
  - apply Nat.ltb_lt in E. rewrite length_drop. lia.
  - apply Nat.ltb_ge in E. lia.
Qed.

(** The entries the trim discards are the first ones, the oldest, [push]
    adding at the end. *)
Lemma trim_suffix {A} (MAX : nat) (pool : list A) :
  ∃ oldest, pool = oldest ++ trim MAX pool
            ∧ length oldest = (length pool - MAX)%nat.
Proof.
  unfold trim. destruct (MAX <? length pool)%nat eqn:E.
  - exists (take (length pool - MAX) pool).
    rewrite take_drop, length_take. split; [done|lia].
  - apply Nat.ltb_ge in E. exists []. split; [done|simpl; lia].
Qed.

Lemma pushEach_length {A} n (create : nat → A * nat) pool k :
  length (fst (pushEach n create pool k)) = (length pool + n)%nat.
Proof.
  destruct (pushEach_app n create pool k) as (new & -> & <-).
  apply length_app.
Qed.

(** C5, as amended.  At the end of every animation frame that runs to
    completion the shape pool has at most [MAX_SHAPES] entries and the
    particle pool at most [MAX_PARTICLES] (100 and 100, or 100 and 200 in
    the first grid), whatever the pools held before, and the entries the
    trim discards are the oldest ones.  An interaction itself adds its
    three shapes and two particles without trimming. *)
Theorem pools_capped_after_each_frame (random : nat → Q) (window : Window) :
  (∀ canvas now s s',
     Fill.animate canvas now s = Normal s' →
     (length (Fill.shapesRef s') ≤ Fill.MAX_SHAPES)%nat
     ∧ (length (Fill.particlesRef s') ≤ Fill.MAX_PARTICLES)%nat
     ∧ (∃ oldest, stepShapes (Fill.shapesRef s)
                  = oldest ++ Fill.shapesRef s')
     ∧ (∃ oldest, stepParticles 0.05 (Fill.particlesRef s)
                  = oldest ++ Fill.particlesRef s'))
  ∧ (∀ s,
       (length (Trail.shapesRef (Trail.animate s)) ≤ 100)%nat
       ∧ (length (Trail.particlesRef (Trail.animate s)) ≤ 200)%nat
       ∧ (∃ oldest, stepShapes (Trail.shapesRef s)
                    = oldest ++ Trail.shapesRef (Trail.animate s))
       ∧ (∃ oldest, stepParticles 0.2 (Trail.particlesRef s)
                    = oldest ++ Trail.particlesRef (Trail.animate s)))
  ∧ (∀ x y canvas t s r,
       Fill.handleInteractionLogic random window x y canvas t s = Normal r →
       length (Fill.shapesRef (fst r)) = (length (Fill.shapesRef s) + 3)%nat
       ∧ length (Fill.particlesRef (fst r))
         = (length (Fill.particlesRef s) + 2)%nat).
Proof.
  split; [|split].
  - intros canvas now s s'. unfold Fill.animate.
    destruct (drawCellHighlights _ _ _); [|done].
    intros [= <-]. cbn [Fill.shapesRef Fill.particlesRef].
    split; [apply trim_length|]. split; [apply trim_length|].
    split.
    + destruct (trim_suffix Fill.MAX_SHAPES (stepShapes (Fill.shapesRef s)))
        as (oldest & H & _). eauto.
    + destruct (trim_suffix Fill.MAX_PARTICLES
                  (stepParticles 0.05 (Fill.particlesRef s)))
        as (oldest & H & _). eauto.
  - intros s. unfold Trail.animate. cbn [Trail.shapesRef Trail.particlesRef].
    split; [apply (trim_length 100)|]. split; [apply (trim_length 200)|].
    split.
    + destruct (trim_suffix Trail.MAX_SHAPES (stepShapes (Trail.shapesRef s)))
        as (oldest & H & _). eauto.
    + destruct (trim_suffix Trail.MAX_PARTICLES
                  (stepParticles 0.2 (Trail.particlesRef s)))
        as (oldest & H & _). eauto.
  - intros x y canvas t s r. unfold Fill.handleInteractionLogic.
    destruct (Fill.generateScale _); [|done].
    pose proof (pushEach_length 3 (createShape random x y)
                  (Fill.shapesRef s) (Fill.draws s)) as Hs.
    destruct (pushEach 3 _ _ _) as [shapes k].
    pose proof (pushEach_length 2 (createParticle random x y)
                  (Fill.particlesRef s) k) as Hp.
    destruct (pushEach 2 _ _ _) as [particles k'].
    cbn [fst] in Hs, Hp.
    split_handler; intros [= <-]; done.
Qed.

Lemma pools_capped_after_each_frame_witness :
  ∃ s',
    Fill.animate (mkCanvas 1600 800) 1100
      (Fill.run (λ _, 0.5%Q) (mkWindow true (Some constructs) 1600 800 1)
         (mkCanvas 1600 800) (Fill.rounds 2 1000) Fill.initial)
    = Normal s'
    ∧ (length (Fill.shapesRef s') ≤ 100)%nat
    ∧ (length (Fill.particlesRef s') ≤ 100)%nat.
Proof.
  destruct (Fill.animate _ _ _) as [s'|s'] eqn:E.
  - exists s'. split; [reflexivity|].
    destruct (pools_capped_after_each_frame (λ _, 0.5%Q)
                (mkWindow true (Some constructs) 1600 800 1))
      as (Hframe & _ & _).
    destruct (Hframe _ _ _ _ E) as (H1 & H2 & _).
    split; [exact H1 | exact H2].
  - vm_compute in E. discriminate E.
Defined.

(** Two pointer moves and a frame every 40 ms for 26 rounds fill both
    pools to their caps; the next pointer move leaves 103 shapes and 102
    particles in them, above the caps, until the next frame. *)
Lemma pools_exceed_caps_between_frames :
  let window := mkWindow true (Some constructs) 1600 800 1 in
  let s :=
    Fill.run (λ _, 0.5%Q) window (mkCanvas 1600 800)
      (Fill.rounds 26 1000 ++ [Fill.interaction 150 150 2040]) Fill.initial in
  length (Fill.shapesRef s) = 103%nat
  ∧ length (Fill.particlesRef s) = 102%nat
  ∧ ¬ (length (Fill.shapesRef s) ≤ Fill.MAX_SHAPES)%nat
  ∧ ¬ (length (Fill.particlesRef s) ≤ Fill.MAX_PARTICLES)%nat.
Proof.
  vm_compute. repeat split; try done; lia.
Qed.

(** ** C6: the decay of a highlight *)

Lemma Qle_bool_false (a b : Q) : Qle_bool a b = false ↔ (b < a)%Q.
Proof.
  split.
  - intros H. apply Qnot_le_lt. intros Hle.
    apply Qle_bool_iff in Hle. congruence.
  - intros H. destruct (Qle_bool a b) eqn:E; [|done].
    apply Qle_bool_iff in E. apply Qlt_not_le in H. contradiction.
Qed.

Lemma Qgtb_true (a b : Q) : Qgtb a b = true ↔ (b < a)%Q.
Proof.
  unfold Qgtb. rewrite negb_true_iff. apply Qle_bool_false.
Qed.

Lemma Qgtb_false (a b : Q) : Qgtb a b = false ↔ (a <= b)%Q.
Proof.
  unfold Qgtb. rewrite negb_false_iff. apply Qle_bool_iff.
Qed.

(** The opacity of an active highlight after a frame at [now]. *)
Lemma fadeHighlight_active (now : Z) (h : CellHighlight.t) :
  (0 < CellHighlight.alpha h)%Q →
  ∃ h', fadeHighlight now (Some h) = Some h'
        ∧ CellHighlight.time h' = CellHighlight.time h
        ∧ (500 < now - CellHighlight.time h →
           CellHighlight.alpha h' = 0%Q)
        ∧ (now - CellHighlight.time h ≤ 500 →
           (CellHighlight.alpha h'
            == 1 - inject_Z (now - CellHighlight.time h) / 500)%Q
           ∧ (CellHighlight.scale h'
              == 1 + 0.2 * (1 - inject_Z (now - CellHighlight.time h) / 500))%Q).
Proof.
  intros Hactive. unfold fadeHighlight.
  rewrite (proj2 (Qle_bool_false _ _) Hactive).
  set (e := now - CellHighlight.time h).
  assert (Hprog : (1 < inject_Z e / inject_Z highlightDuration)%Q ↔ 500 < e).
  { unfold highlightDuration, Qlt, Qdiv, Qmult, Qinv, inject_Z. simpl. lia. }
  destruct (Qgtb _ 1) eqn:E.
  - apply Qgtb_true, Hprog in E.
    eexists. split; [reflexivity|]. cbn. split; [done|]. split; [done|lia].
  - eexists. split; [reflexivity|]. cbn. split; [done|].
    split.
    + intros Hlate. apply Hprog, Qgtb_true in Hlate. congruence.
    + intros _. split; reflexivity.
Qed.

Lemma drawCellHighlights_fixed_grid now cells (i : nat) slot :
  (i < 112)%nat → cells !! i = Some slot →
  ∃ cells', drawCellHighlights (JS.of_Z (Fixed.rows * Fixed.columns)) now cells
            = Some cells'
            ∧ cells' !! i = Some (fadeHighlight now slot).
Proof.
  intros Hi Hslot. unfold drawCellHighlights.
  destruct (JS.len cells =? _)%js.
  - eexists. split; [reflexivity|].
    by rewrite list_lookup_fmap, Hslot.
  - unfold JS.set_length. rewrite as_index_of_Z by done.
    change (Z.to_nat (Fixed.rows * Fixed.columns)) with 112%nat.
    change (Z.of_nat 112 <? 2 ^ 32) with true. cbv iota.
    eexists. split; [reflexivity|].
    rewrite list_lookup_fmap, lookup_app_l.
    + by rewrite lookup_take_lt, Hslot.
    + rewrite length_take. apply lookup_lt_Some in Hslot. lia.
Qed.

(** C6. For an active highlight [h] (opacity above 0) triggered at
    [time h], the opacity a frame computes at elapsed time
    [e = now - time h] is 1 at [e = 0], 0 at [e = 500], and does not
    increase with [e] on [[0, 500]]; past 500 ms the opacity is set to 0
    and every later frame leaves the highlight as it is.  This is what the
    frame of the fixed grid stores in each of its 112 cells. *)
Theorem highlight_decay (h : CellHighlight.t) :
  (0 < CellHighlight.alpha h)%Q →
  let t := CellHighlight.time h in
  let opacity now := opacityOf (fadeHighlight now (Some h)) in
  (opacity t%Z == 1)%Q
  ∧ (opacity (t + highlightDuration)%Z == 0)%Q
  ∧ (∀ now1 now2,
       t ≤ now1 → now1 ≤ now2 → now2 ≤ t + highlightDuration →
       (opacity now2%Z <= opacity now1%Z)%Q)
  ∧ (∀ now,
       t + highlightDuration < now →
       opacity now = 0%Q
       ∧ ∀ later, fadeHighlight later (fadeHighlight now (Some h))
                  = fadeHighlight now (Some h))
  ∧ (∀ canvas now s (i : nat),
       (i < 112)%nat →
       Fixed.cellHighlightsRef s !! i = Some (Some h) →
       Fixed.cellHighlightsRef (Fixed.animate canvas now s) !! i
       = Some (fadeHighlight now (Some h))).
Proof.
  intros Hactive t opacity. unfold highlightDuration.
  assert (Hin : ∀ now, now - t ≤ 500 →
                (opacity now == 1 - inject_Z (now - t) / 500)%Q).
  { intros now Hnow. unfold opacity.
    destruct (fadeHighlight_active now h Hactive) as (h' & -> & _ & _ & Hearly).
    by apply Hearly. }
  assert (Hout : ∀ now, 500 < now - t →
                 ∃ h', fadeHighlight now (Some h) = Some h'
                       ∧ CellHighlight.alpha h' = 0%Q).
  { intros now Hnow.
    destruct (fadeHighlight_active now h Hactive) as (h' & Hh' & _ & Hlate & _).
    exists h'. split; [done|]. by apply Hlate. }
  repeat split.
  - rewrite Hin by lia. replace (t - t) with 0 by lia. reflexivity.
  - rewrite Hin by lia. replace (t + 500 - t) with 500 by lia. reflexivity.
  - intros now1 now2 H1 H12 H2. rewrite !Hin by lia.
    assert (inject_Z (now1 - t) <= inject_Z (now2 - t))%Q
      by (rewrite <- Zle_Qle; lia).
    generalize dependent (inject_Z (now2 - t)).
    generalize (inject_Z (now1 - t)). clear. intros a b Hab.
    unfold Qdiv. change (/ 500)%Q with (1 # 500)%Q.
    Lqa.lra.
  - destruct (Hout now) as (h' & Hh' & Hzero); [lia|].
    unfold opacity. by rewrite Hh'.
  - intros later. destruct (Hout now) as (h' & -> & Hzero); [lia|].
    unfold fadeHighlight. by rewrite Hzero.
  - intros canvas now s i Hi Hslot. unfold Fixed.animate.
    cbn [Fixed.cellHighlightsRef].
    destruct (drawCellHighlights_fixed_grid now _ i _ Hi Hslot)
      as (cells' & -> & Hcells').
    exact Hcells'.
Qed.

Lemma highlight_decay_witness :
  (opacityOf (fadeHighlight 1250 (Some (flash 1000)))
   <= opacityOf (fadeHighlight 1100 (Some (flash 1000))))%Q.
Proof.
  destruct (highlight_decay (flash 1000)) as (_ & _ & Hmono & _).
  - reflexivity.
  - apply (Hmono 1100 1250); unfold flash, highlightDuration; simpl; lia.
Defined.

(** ** C7: outside the grid *)

Lemma Fill_outside_grid random window x y canvas t s :
  Fill.inGrid (Fill.columnsOf canvas) (fst (Fill.cellAt x y canvas))
    (snd (Fill.cellAt x y canvas)) = false →
  let r := Fill.handleInteractionLogic random window x y canvas t s in
  emitted r = []
  ∧ Fill.lastSoundTimeRef (stateAfter r) = Fill.lastSoundTimeRef s
  ∧ Fill.audioContextRef (stateAfter r) = Fill.audioContextRef s
  ∧ Fill.cellHighlightsRef (stateAfter r) = Fill.cellHighlightsRef s
  ∧ (returned r = true →
     ∃ shapes particles,
       length shapes = 3%nat ∧ length particles = 2%nat
       ∧ Fill.shapesRef (stateAfter r) = Fill.shapesRef s ++ shapes
       ∧ Fill.particlesRef (stateAfter r) = Fill.particlesRef s ++ particles)
  ∧ (returned r = false →
     Fill.shapesRef (stateAfter r) = Fill.shapesRef s
     ∧ Fill.particlesRef (stateAfter r) = Fill.particlesRef s).
Proof.
  unfold Fill.columnsOf, Fill.cellAt, Fill.handleInteractionLogic.
  cbn [fst snd]. intros Hout.
  destruct (Fill.generateScale _); [|by repeat split].
  destruct (pushEach_app 3 (createShape random x y)
              (Fill.shapesRef s) (Fill.draws s)) as (shapes & Hs & Hsl).
  destruct (pushEach 3 _ _ _) as [shapes' k].
  destruct (pushEach_app 2 (createParticle random x y)
              (Fill.particlesRef s) k) as (particles & Hp & Hpl).
  destruct (pushEach 2 _ _ _) as [particles' k'].
  cbn [fst] in Hs, Hp. rewrite Hout.
  repeat split; try done. intros _. eauto 10.
Qed.

Lemma Trail_outside_notes random window x y canvas t s :
  Trail.inNotes (Trail.columnsOf canvas) (Trail.effectiveRowsOf canvas)
    (fst (Trail.cellAt x y)) (snd (Trail.cellAt x y)) = false →
  let r := Trail.debouncedInteractionHandler random window x y canvas t s in
  emitted r = []
  ∧ Trail.lastSoundTimeRef (stateAfter r) = Trail.lastSoundTimeRef s
  ∧ Trail.audioContextRef (stateAfter r) = Trail.audioContextRef s
  ∧ (returned r = true →
     ∃ shapes particles,
       length shapes = 3%nat ∧ length particles = 3%nat
       ∧ Trail.shapesRef (stateAfter r) = Trail.shapesRef s ++ shapes
       ∧ Trail.particlesRef (stateAfter r) = Trail.particlesRef s ++ particles)
  ∧ (returned r = false → stateAfter r = s).
Proof.
  unfold Trail.columnsOf, Trail.effectiveRowsOf, Trail.cellAt,
    Trail.debouncedInteractionHandler.
  cbn [fst snd]. intros Hout.
  destruct (Trail.generateScale _); [|by repeat split].
  destruct (pushEach_app 3 (createShape random x y)
              (Trail.shapesRef s) (Trail.draws s)) as (shapes & Hs & Hsl).
  destruct (pushEach 3 (createShape _ _ _) _ _) as [shapes' k].
  destruct (pushEach_app 3 (Trail.createParticle random x y)
              (Trail.particlesRef s) k) as (particles & Hp & Hpl).
  destruct (pushEach 3 _ _ _) as [particles' k'].
  cbn [fst] in Hs, Hp. rewrite Hout.
  repeat split; try done. intros _. eauto 10.
Qed.





(** ** C8: audio that is not available *)

(** [playSound] never throws (its result is a plain pair); without a secure
    context or without an [AudioContext] class it logs one warning, starts
    no oscillator and leaves [audioContextRef] alone. *)
Lemma playSound_fails_silently window audioContextRef frequency volume :
  isSecureContext window = false
  ∨ (audioContextRef = false ∧ AudioContext window = None) →
  ∃ msg, playSound window audioContextRef frequency volume
         = (audioContextRef, [warn msg]).
Proof.
  unfold playSound, acquireContext.
  intros [Hinsecure | [-> Hnone]].
  - rewrite Hinsecure. simpl. eauto.
  - rewrite Hnone. destruct (isSecureContext window); simpl; eauto.
Qed.

Lemma playDrum_unsupported window volume :
  AudioContext window = None →
  playDrum window false volume
  = Normal (false, [warn "AudioContext not supported"]).
Proof. unfold playDrum, acquireContext. by intros ->. Qed.

(** C8.  Outside a secure context, with an [AudioContext] class present,
    [playSound] logs its warning and does nothing, but [playDrum], which
    has no such test, creates the context and starts the drum oscillator
    without any warning; and where the constructor throws, [playDrum] lets
    the exception through, so the handler of the fixed grid ends by it. *)
Theorem playDrum_ignores_secure_context :
  let insecure := mkWindow false (Some constructs) 1600 700 1 in
  let broken := mkWindow false (Some throws) 1600 700 1 in
  playSound insecure false (Some 130.81%R) (JS.Fin 0.8)
  = (false, [warn "AudioContext requires secure context (HTTPS)"])
  ∧ playDrum insecure false (JS.Fin 0.8)
    = Normal (true, [tone square 60 0.8 0.1])
  ∧ playDrum broken false (JS.Fin 0.8) = Throw (false, [])
  ∧ emitted (Fixed.handleInteractionLogic (λ _, 0.5%Q) insecure 0 150
               (mkCanvas 1600 700) 1000 (Fixed.mount Fixed.initial))
    = [playDrumCall (JS.Fin (113 # 140)); tone square 60 (113 # 140) 0.1]
  ∧ returned (Fixed.handleInteractionLogic (λ _, 0.5%Q) broken 0 150
                (mkCanvas 1600 700) 1000 (Fixed.mount Fixed.initial))
    = false.
Proof.
  repeat split; vm_compute; reflexivity.
Qed.

(** ** C9: the scale follows the layout *)

Lemma Oriented_handle_keeps_layout random window x y canvas t s :
  let s' :=
    stateAfter (Oriented.handleInteractionLogic random window x y canvas t s)
  in
  Oriented.columns s' = Oriented.columns s
  ∧ Oriented.scaleRef s' = Oriented.scaleRef s.
Proof.
  unfold Oriented.handleInteractionLogic.
  split_handler; done.
Qed.

Lemma Oriented_animate_keeps_layout now s :
  Oriented.columns (outcome (Oriented.animate now s)) = Oriented.columns s
  ∧ Oriented.scaleRef (outcome (Oriented.animate now s))
    = Oriented.scaleRef s.
Proof.
  unfold Oriented.animate. by destruct (drawCellHighlights _ _ _).
Qed.

Lemma Oriented_layout_cases window :
  let params := Oriented.getLayoutParams window in
  (Oriented.orientationIsPortrait window = true
   ∧ Oriented.currentColumns params = 9 ∧ Oriented.totalNotes params = 35)
  ∨ (Oriented.orientationIsPortrait window = false
     ∧ Oriented.currentColumns params = 16
     ∧ Oriented.totalNotes params = 70).
Proof.
  unfold Oriented.getLayoutParams.
  destruct (Oriented.orientationIsPortrait window); simpl; auto.
Qed.

Lemma Oriented_update_layout window s :
  let params := Oriented.getLayoutParams window in
  let s' := Oriented.updateLayoutAndScale window s in
  Oriented.columns s' = Oriented.currentColumns params
  ∧ Oriented.scaleRef s'
    = Oriented.generateScale (5 * (Oriented.currentColumns params - 2)).
Proof. done. Qed.

(** C9.  From the mount effect on, whatever resizes, pointer moves and
    frames follow, the columns are those of the orientation of the window
    and the scale has as many entries as the layout has note cells, 5 rows
    of [columns - 2]: 70 in landscape, 35 in portrait.  A resize to a
    portrait window leaves, before anything else runs, 9 columns and a scale
    of 35 entries, and that is the state the next interaction works on. *)
Theorem scale_length_is_note_cell_count
  (random : nat → Q) (window : Window) (s : Oriented.State) :
  Oriented.reachable random window s →
  Oriented.columns s
  = Oriented.currentColumns (Oriented.getLayoutParams window)
  ∧ length (Oriented.scaleRef s) = Z.to_nat (5 * (Oriented.columns s - 2))
  ∧ (Oriented.orientationIsPortrait window = false →
     Oriented.columns s = 16 ∧ length (Oriented.scaleRef s) = 70%nat)
  ∧ (∀ portrait,
       Oriented.orientationIsPortrait portrait = true →
       let s' := Oriented.updateLayoutAndScale portrait s in
       Oriented.reachable random portrait s'
       ∧ Oriented.columns s' = 9
       ∧ length (Oriented.scaleRef s') = 35%nat
       ∧ ∀ x y t,
           Oriented.scaleRef
             (stateAfter (Oriented.handleInteractionLogic random portrait
                            x y (Oriented.canvas s') t s'))
           = Oriented.scaleRef s').
Proof.
  intros Hreach.
  assert (Hinv : Oriented.columns s
                 = Oriented.currentColumns (Oriented.getLayoutParams window)
                 ∧ Oriented.scaleRef s
                   = Oriented.generateScale (5 * (Oriented.columns s - 2))).
  { induction Hreach as [window now | window s window' _ _
                        | window s x y t _ IH | window s now _ IH].
    - destruct (Oriented_animate_keeps_layout now
                  (Oriented.updateLayoutAndScale window Oriented.initial))
        as [-> ->].
      apply Oriented_update_layout.
    - apply Oriented_update_layout.
    - destruct (Oriented_handle_keeps_layout random window x y
                  (Oriented.canvas s) t s) as [Hc Hs].
      unfold stateAfter in *. by rewrite Hc, Hs.
    - destruct (Oriented_animate_keeps_layout now s) as [-> ->]. exact IH. }
  destruct Hinv as [Hcols Hscale].
  assert (Hlen : length (Oriented.scaleRef s)
                 = Z.to_nat (5 * (Oriented.columns s - 2))).
  { rewrite Hscale at 1. apply tabulate_length. }
  split; [exact Hcols|]. split; [exact Hlen|]. split.
  - intros Hland.
    destruct (Oriented_layout_cases window) as [(Hp & _)|(_ & H16 & _)];
      [congruence|].
    rewrite Hlen, Hcols, H16. done.
  - intros portrait Hport s'.
    split; [exact (Oriented.reach_resize random window s portrait Hreach)|].
    destruct (Oriented_layout_cases portrait) as [(_ & H9 & _)|(Hp & _)];
      [|congruence].
    destruct (Oriented_update_layout portrait s) as [Hc Hs].
    fold s' in Hc, Hs. rewrite H9 in Hc, Hs.
    split; [exact Hc|]. split.
    + rewrite Hs. apply tabulate_length.
    + intros x y t.
      apply (Oriented_handle_keeps_layout random portrait x y
               (Oriented.canvas s') t s').
Qed.

Lemma scale_length_is_note_cell_count_witness :
  let landscape := mkWindow true (Some constructs) 1600 700 1 in
  let portrait := mkWindow true (Some constructs) 700 1600 1 in
  let s :=
    Oriented.updateLayoutAndScale portrait
      (outcome (Oriented.animate 1000
                  (Oriented.updateLayoutAndScale landscape Oriented.initial)))
  in
  Oriented.columns s = 9 ∧ length (Oriented.scaleRef s) = 35%nat.
Proof.
  intros landscape portrait s.
  destruct (scale_length_is_note_cell_count (λ _, 0.5%Q) portrait s)
    as (Hc & Hl & _).
  - apply Oriented.reach_resize with (window := landscape).
    apply Oriented.reach_mount.
  - split; [exact Hc|]. rewrite Hl, Hc. reflexivity.
Defined.

(** ** C10: the visuals do not wait for the sound *)


Lemma cell_div_finite (w h : Q) (r : Z) :
  r ≠ 0 → ¬ (h == 0)%Q → ∃ q, (JS.Fin w / (JS.Fin h / $r))%js = JS.Fin q.
Proof.
  intros Hr Hh. rewrite cellSize_finite by done. unfold JS.div.
  destruct (Qred (h / inject_Z r) ?= 0)%Q eqn:Hc; eauto.
  exfalso. apply Hh. apply Qeq_alt in Hc. rewrite Qred_correct in Hc.
  assert (Hr' : ¬ (inject_Z r == 0)%Q).
  { unfold Qeq, inject_Z. simpl. lia. }
  rewrite <- (Qmult_div_r h (inject_Z r) Hr'), Hc. ring.
Qed.

Lemma ltb_PInf (c : JS.num) : (JS.PInf <? c)%js = false.
Proof. by destruct c. Qed.

Lemma Fill_inGrid_numbered x y canvas :
  Fill.inGrid (Fill.columnsOf canvas) (fst (Fill.cellAt x y canvas))
    (snd (Fill.cellAt x y canvas)) = true →
  ∃ zx zy zc,
    Fill.columnsOf canvas = JS.of_Z zc
    ∧ Fill.cellAt x y canvas = (JS.of_Z zx, JS.of_Z zy)
    ∧ 0 ≤ zx < zc ∧ 0 ≤ zy < 8.
Proof.
  unfold Fill.inGrid, Fill.columnsOf, Fill.cellAt. cbn [fst snd].
  intros [[[Hx0 Hxc]%andb_true_iff Hy0]%andb_true_iff Hy8]%andb_true_iff.
  destruct (floor_of_Z_or_not_finite
              (JS.Fin x / (JS.Fin (height canvas) / $Fill.rows))%js)
    as [[zx Hzx]|[Hzx|[Hzx|Hzx]]];
    rewrite Hzx in *; try done; [|by rewrite ltb_PInf in Hxc].
  destruct (floor_of_Z_or_not_finite
              (JS.Fin y / (JS.Fin (height canvas) / $Fill.rows))%js)
    as [[zy Hzy]|[Hzy|[Hzy|Hzy]]];
    rewrite Hzy in *; try done.
  assert (Hh : ¬ (height canvas == 0)%Q)
    by (eapply numbered_cell_height; [|exact Hzx]; done).
  destruct (cell_div_finite (width canvas) (height canvas) Fill.rows
              ltac:(done) Hh) as [q Hq].
  rewrite Hq in *. cbn [JS.floor] in *.
  rewrite geb_of_Z in Hx0, Hy0. rewrite ltb_of_Z in Hxc, Hy8.
  apply Z.leb_le in Hx0, Hy0. apply Z.ltb_lt in Hxc, Hy8.
  exists zx, zy, (Qfloor q). unfold Fill.rows in *. repeat split; lia.
Qed.

Lemma Fill_scale_length (zc : Z) scale :
  0 < zc → Fill.generateScale ($Fill.rows * $zc)%js = Some scale →
  JS.len scale = JS.of_Z (8 * zc).
Proof.
  intros Hzc. rewrite of_Z_mul. unfold Fill.generateScale, JS.array_length.
  unfold JS.of_Z at 1. rewrite Qfloor_Z. unfold Fill.rows.
  destruct (8 * zc <? 2 ^ 32); [|done].
  intros [= <-]. unfold JS.len, generateScale.
  rewrite tabulate_length. f_equal. lia.
Qed.




(** ** The volume *)

(** The number [volumeAt] computes on a canvas of positive height. *)
Lemma volumeAt_value (y : Q) (canvas : Canvas) :
  (0 < height canvas)%Q →
  ∃ v, volumeAt y canvas = JS.Fin v
       ∧ ((0.1 <= 1 - y / height canvas * 0.9
           ∧ v == 1 - y / height canvas * 0.9)
          ∨ (1 - y / height canvas * 0.9 < 0.1 ∧ v == 0.1))%Q.
Proof.
  intros Hh. unfold volumeAt, JS.div.
  destruct (height canvas ?= 0)%Q eqn:Hc.
  - apply Qeq_alt in Hc. rewrite Hc in Hh. by apply Qlt_irrefl in Hh.
  - apply Qlt_alt in Hc. exfalso. apply (Qlt_irrefl 0).
    by apply Qlt_trans with (height canvas).
  - unfold JS.max, JS.sub, JS.mul, JS.add, JS.neg, JS.of_Z.
    set (w := Qred (inject_Z 1 + Qred (- Qred (Qred (y / height canvas) * 0.9)))).
    assert (Hw : (w == 1 - y / height canvas * 0.9)%Q).
    { unfold w. rewrite !Qred_correct. unfold Qminus. reflexivity. }
    destruct (Qle_bool 0.1 w) eqn:E.
    + apply Qle_bool_iff in E. exists w. split; [done|]. left.
      split; [by rewrite <- Hw | done].
    + apply Qle_bool_false in E. exists 0.1%Q. split; [done|]. right.
      split; [by rewrite <- Hw | reflexivity].
Qed.

Lemma Qdiv_unit_interval (y h : Q) :
  (0 < h)%Q → (0 <= y)%Q → (y <= h)%Q → (0 <= y / h ∧ y / h <= 1)%Q.
Proof.
  intros Hh Hy Hyh. split.
  - apply Qle_shift_div_l; [done|]. by rewrite Qmult_0_l.
  - apply Qle_shift_div_r; [done|]. by rewrite Qmult_1_l.
Qed.

Lemma Qdiv_le_mono (y1 y2 h : Q) :
  (0 < h)%Q → (y1 <= y2)%Q → (y1 / h <= y2 / h)%Q.
Proof.
  intros Hh Hy. unfold Qdiv. apply Qmult_le_compat_r; [done|].
  apply Qlt_le_weak. by apply Qinv_lt_0_compat.
Qed.

(** X1.  On a canvas of positive height the volume is a finite number that
    is never below 0.1; it is 1 at the top edge, at most 1 for a pointer at
    or below the top edge, and it does not grow as the pointer moves
    down. *)
Theorem volume_louder_near_the_top (canvas : Canvas) :
  (0 < height canvas)%Q →
  (∀ y, ∃ v, volumeAt y canvas = JS.Fin v
             ∧ (0.1 <= v)%Q
             ∧ ((0 <= y)%Q → (v <= 1)%Q)
             ∧ ((y == 0)%Q → (v == 1)%Q))
  ∧ (∀ y1 y2 v1 v2,
       (y1 <= y2)%Q →
       volumeAt y1 canvas = JS.Fin v1 → volumeAt y2 canvas = JS.Fin v2 →
       (v2 <= v1)%Q).
Proof.
  intros Hh. split.
  - intros y. destruct (volumeAt_value y canvas Hh) as (v & Hv & Hcases).
    exists v. split; [done|].
    assert (Hd : (0 <= y)%Q → (0 <= y / height canvas)%Q).
    { intros Hy. apply Qle_shift_div_l; [done|]. by rewrite Qmult_0_l. }
    assert (Hz : (y == 0)%Q → (y / height canvas == 0)%Q).
    { intros ->. unfold Qdiv. apply Qmult_0_l. }
    generalize dependent (y / height canvas)%Q. intros d Hcases Hd Hz.
    destruct Hcases as [[H1 H2]|[H1 H2]]; rewrite H2.
    + split; [done|]. split.
      * intros Hy. specialize (Hd Hy). Lqa.lra.
      * intros Hy. specialize (Hz Hy). Lqa.lra.
    + split; [Lqa.lra|]. split; [intros; Lqa.lra|].
      intros Hy. specialize (Hz Hy). Lqa.lra.
  - intros y1 y2 v1 v2 Hy H1 H2.
    destruct (volumeAt_value y1 canvas Hh) as (w1 & Hw1 & Hc1).
    destruct (volumeAt_value y2 canvas Hh) as (w2 & Hw2 & Hc2).
    rewrite H1 in Hw1. rewrite H2 in Hw2.
    injection Hw1 as <-. injection Hw2 as <-.
    pose proof (Qdiv_le_mono y1 y2 (height canvas) Hh Hy) as Hd.
    generalize dependent (y1 / height canvas)%Q.
    generalize dependent (y2 / height canvas)%Q.
    intros d2 Hc2 d1 Hc1 Hd.
    destruct Hc1 as [[A1 B1]|[A1 B1]], Hc2 as [[A2 B2]|[A2 B2]];
      rewrite B1, B2; Lqa.lra.
Qed.

Lemma volume_louder_near_the_top_witness :
  ∃ v, volumeAt 350 (mkCanvas 1600 700) = JS.Fin v ∧ (0.1 <= v)%Q.
Proof.
  destruct (volume_louder_near_the_top (mkCanvas 1600 700)) as [Hall _].
  - reflexivity.
  - destruct (Hall 350%Q) as (v & Hv & Hlow & _). exists v. split; assumption.
Defined.

Lemma volumeAt_in_range (y : Q) (canvas : Canvas) :
  (0 < height canvas)%Q → (0 <= y)%Q →
  ∃ v, volumeAt y canvas = JS.Fin v ∧ (0.1 <= v)%Q ∧ (v <= 1)%Q.
Proof.
  intros Hh Hy. destruct (volumeAt_value y canvas Hh) as (v & Hv & Hcases).
  exists v. split; [done|].
  assert (Hd : (0 <= y / height canvas)%Q).
  { apply Qle_shift_div_l; [done|]. by rewrite Qmult_0_l. }
  generalize dependent (y / height canvas)%Q. intros d Hcases Hd.
  destruct Hcases as [[H1 H2]|[H1 H2]]; rewrite H2; split; Lqa.lra.
Qed.

(** X2.  In the fixed grid, every oscillator that a pointer at or below the
    top edge of a canvas of positive height starts has an initial gain
    between 0.1 and 1. *)
Theorem Fixed_tone_gain_in_range
  (random : nat → Q) (window : Window) x y canvas t s :
  (0 < height canvas)%Q → (0 <= y)%Q →
  Forall (λ e, ∀ g, gainOf e = Some g → (0.1 <= g)%Q ∧ (g <= 1)%Q)
    (emitted (Fixed.handleInteractionLogic random window x y canvas t s)).
Proof.
  intros Hh Hy.
  destruct (volumeAt_in_range y canvas Hh Hy) as (v & Hv & Hlo & Hhi).
  unfold Fixed.handleInteractionLogic. rewrite Hv.
  destruct (pushEach 3 _ _ _) as [shapes k].
  destruct (pushEach 2 _ _ _) as [particles k'].
  unfold playDrum, playSound.
  repeat match goal with
    | |- context [if ?b then _ else _] => destruct b
    | |- context [match acquireContext ?w ?a with _ => _ end] =>
        destruct (acquireContext w a)
    | |- context [match JS.get ?l ?i with _ => _ end] => destruct (JS.get l i)
    end;
    cbn [emitted outcome snd negb];
    repeat (apply List.Forall_cons;
            [cbn; first [done | intros ? [= <-]; done]|]);
    apply List.Forall_nil.
Qed.

Lemma Fixed_tone_gain_in_range_witness :
  Forall (λ e, ∀ g, gainOf e = Some g → (0.1 <= g)%Q ∧ (g <= 1)%Q)
    (emitted (Fixed.handleInteractionLogic (λ _, 0.5%Q)
                (mkWindow true (Some constructs) 1600 700 1)
                150 150 (mkCanvas 1600 700) 1000 (Fixed.mount Fixed.initial))).
Proof.
  apply Fixed_tone_gain_in_range; [reflexivity | discriminate].
Defined.

(** ** What is spawned *)

Lemma Qfloor_range (q : Q) (n : Z) :
  (0 <= q)%Q → (q < inject_Z n)%Q → 0 ≤ Qfloor q < n.
Proof.
  intros H0 Hn. split.
  - change 0 with (Qfloor 0). by apply Qfloor_resp_le.
  - rewrite Zlt_Qlt. eapply Qle_lt_trans; [apply Qfloor_le|done].
Qed.

(** [list[Math.floor(Math.random() * list.length)]] picks an entry of a
    list that is not empty. *)
Lemma palette_pick {A} (l : list A) (r : Q) :
  (0 <= r)%Q → (r < 1)%Q → l ≠ [] →
  ∃ a, JS.get l (JS.floor (JS.Fin r * JS.len l)) = Some a ∧ a ∈ l.
Proof.
  intros H0 H1 Hl.
  assert (Hlen : 0 < Z.of_nat (length l)) by (destruct l; [done|simpl; lia]).
  unfold JS.len, JS.of_Z, JS.mul. cbn [JS.floor].
  assert (Hz : 0 ≤ Qfloor (Qred (r * inject_Z (Z.of_nat (length l))))
               < Z.of_nat (length l)).
  { rewrite (Qfloor_comp _ _ (Qred_correct _)).
    assert (Hpos : (0 < inject_Z (Z.of_nat (length l)))%Q)
      by (change 0%Q with (inject_Z 0); by rewrite <- Zlt_Qlt).
    apply Qfloor_range.
    - apply Qmult_le_0_compat; [done|by apply Qlt_le_weak].
    - rewrite <- (Qmult_1_l (inject_Z (Z.of_nat (length l)))) at 2.
      by apply Qmult_lt_compat_r. }
  unfold JS.get. rewrite as_index_of_Z by lia. cbn [mbind option_bind].
  destruct (lookup_lt_is_Some_2 l
              (Z.to_nat (Qfloor (Qred (r * inject_Z (Z.of_nat (length l)))))))
    as [a Ha]; [lia|].
  exists a. split; [done|]. by eapply list_elem_of_lookup_2.
Qed.

Section RandomInUnitInterval.
Variable random : nat → Q.
Hypothesis unit_interval : ∀ k, (0 <= random k)%Q ∧ (random k < 1)%Q.

(** X3.  With [Math.random()] in [[0, 1)], a shape is created at the
    pointer with full life, a size in [[5, 25)], a velocity in [[-1, 1)] on
    each axis, a colour of the palette and one of the three kinds, never an
    undefined one; a particle with a size from 5 to 8, a velocity in
    [[-2, 2)] across and [[-0.25, 0.25)] down, and an angle in
    [[0, 360)].  The size is bounded by 8 inclusive: the source rounds
    [Math.random() * 3 + 5] to a double, which is 8 for the largest draw
    below 1. *)
Theorem spawned_entities_in_range (x y : Q) (k : nat) :
  let shape := fst (createShape random x y k) in
  let particle := fst (createParticle random x y k) in
  (Shape.x shape = x ∧ Shape.y shape = y ∧ Shape.life shape = 1%Q
   ∧ (5 <= Shape.size shape)%Q ∧ (Shape.size shape < 25)%Q
   ∧ (-1 <= Shape.vx shape)%Q ∧ (Shape.vx shape < 1)%Q
   ∧ (-1 <= Shape.vy shape)%Q ∧ (Shape.vy shape < 1)%Q
   ∧ (∃ c, Shape.color shape = Some c ∧ c ∈ COLORS)
   ∧ (∃ kind, Shape.type shape = Some kind))
  ∧ (Particle.x particle = x ∧ Particle.y particle = y
     ∧ Particle.life particle = 1%Q
     ∧ (5 <= Particle.size particle)%Q ∧ (Particle.size particle <= 8)%Q
     ∧ (-2 <= Particle.vx particle)%Q ∧ (Particle.vx particle < 2)%Q
     ∧ (-0.25 <= Particle.vy particle)%Q ∧ (Particle.vy particle < 0.25)%Q
     ∧ (0 <= Particle.angle particle)%Q
     ∧ (Particle.angle particle < 360)%Q).
Proof.
  cbn [createShape createParticle fst Shape.x Shape.y Shape.life Shape.size
       Shape.vx Shape.vy Shape.color Shape.type Particle.x Particle.y
       Particle.life Particle.size Particle.vx Particle.vy Particle.angle].
  pose proof (unit_interval k) as [A0 A1].
  pose proof (unit_interval (k + 1)) as [B0 B1].
  pose proof (unit_interval (k + 2)) as [C0 C1].
  pose proof (unit_interval (k + 3)) as [D0 D1].
  pose proof (unit_interval (k + 4)) as [E0 E1].
  destruct (palette_pick COLORS (random (k + 1)) B0 B1 ltac:(done))
    as (c & Hc & Hin).
  destruct (palette_pick SHAPES (random (k + 2)) C0 C1 ltac:(done))
    as (kind & Hkind & _).
  repeat split; try done; try Lqa.lra; eauto.
Qed.

End RandomInUnitInterval.

Lemma spawned_entities_in_range_witness :
  (5 <= Shape.size (fst (createShape (λ _, 0.5%Q) 150 150 0)))%Q
  ∧ ∃ c, Shape.color (fst (createShape (λ _, 0.5%Q) 150 150 0)) = Some c
         ∧ c ∈ COLORS.
Proof.
  destruct (spawned_entities_in_range (λ _, 0.5%Q)
              ltac:(intros; split; [discriminate|reflexivity]) 150 150 0)
    as [(_ & _ & _ & Hsize & _ & _ & _ & _ & _ & Hcolor & _) _].
  split; [exact Hsize | exact Hcolor].
Defined.

(** ** The pools over time *)

Lemma filter_StronglySorted {A} (R : A → A → Prop) (f : A → bool) l :
  StronglySorted R l → StronglySorted R (List.filter f l).
Proof.
  induction 1 as [|a l Hl IH Ha]; simpl; [constructor|].
  destruct (f a); [|done].
  constructor; [done|].
  apply List.Forall_forall. intros b [Hb _]%List.filter_In.
  by eapply List.Forall_forall in Ha.
Qed.

Lemma filter_Forall_true {A} (f : A → bool) l :
  Forall (λ a, f a = true) (List.filter f l).
Proof.
  apply List.Forall_forall. by intros a [_ Ha]%List.filter_In.
Qed.

Lemma filter_Forall {A} (P : A → Prop) (f : A → bool) l :
  Forall P l → Forall P (List.filter f l).
Proof.
  rewrite !List.Forall_forall. intros H a [Ha _]%List.filter_In. auto.
Qed.

Lemma trim_Forall {A} (P : A → Prop) MAX (pool : list A) :
  Forall P pool → Forall P (trim MAX pool).
Proof.
  intros H. destruct (trim_suffix MAX pool) as (oldest & Hpool & _).
  rewrite Hpool in H. by apply Forall_app in H as [_ H].
Qed.

Lemma trim_StronglySorted {A} (R : A → A → Prop) MAX (pool : list A) :
  StronglySorted R pool → StronglySorted R (trim MAX pool).
Proof.
  intros H. destruct (trim_suffix MAX pool) as (oldest & Hpool & _).
  rewrite Hpool in H. by apply StronglySorted_app_1_r in H.
Qed.

Lemma trim_no_longer {A} MAX (pool : list A) :
  (length (trim MAX pool) ≤ length pool)%nat.
Proof.
  destruct (trim_suffix MAX pool) as (oldest & Hpool & _).
  rewrite Hpool at 2. rewrite length_app. lia.
Qed.

Lemma pushEach_Forall {A} (P : A → Prop) n (create : nat → A * nat) pool k :
  (∀ k, P (fst (create k))) →
  ∃ new, fst (pushEach n create pool k) = pool ++ new
         ∧ length new = n ∧ Forall P new.
Proof.
  intros HP. revert pool k. induction n as [|n IH]; intros pool k; simpl.
  - exists []. by rewrite app_nil_r.
  - specialize (HP k). destruct (create k) as [a k'].
    destruct (IH (pool ++ [a]) k') as (new & Hnew & Hlen & HF).
    exists (a :: new). rewrite Hnew, <- app_assoc. simpl. auto.
Qed.

(** A pool in order of age, no entry with more than full life. *)
Lemma fresh_behind_aged {A} (life : A → Q) (pool new : list A) :
  StronglySorted (λ a b, life a <= life b)%Q pool →
  Forall (λ a, life a <= 1)%Q pool →
  Forall (λ a, life a = 1%Q) new →
  StronglySorted (λ a b, life a <= life b)%Q (pool ++ new)
  ∧ Forall (λ a, life a <= 1)%Q (pool ++ new).
Proof.
  intros Hs Hle Hnew. split.
  - apply StronglySorted_app_2; [|done|].
    + intros a b Ha Hb.
      rewrite Forall_forall in Hle. rewrite Forall_forall in Hnew.
      rewrite (Hnew b Hb). by apply Hle.
    + clear Hs Hle. induction new as [|b new IH]; [constructor|].
      apply Forall_cons in Hnew as [Hb Hnew].
      constructor; [by apply IH|].
      eapply Forall_impl; [exact Hnew|]. intros c Hc. cbn beta in Hc.
      rewrite Hb, Hc. apply Qle_refl.
  - apply Forall_app. split; [done|].
    eapply Forall_impl; [exact Hnew|]. intros c Hc. simpl in Hc.
    rewrite Hc. apply Qle_refl.
Qed.

Lemma stepShapes_in_order pool :
  StronglySorted olderShape pool →
  Forall (λ a, Shape.life a <= 1)%Q pool →
  StronglySorted olderShape (stepShapes pool)
  ∧ Forall (λ a, Shape.life a <= 1)%Q (stepShapes pool).
Proof.
  intros Hs Hle. unfold stepShapes. split.
  - apply filter_StronglySorted.
    eapply StronglySorted_fmap; [|exact Hs].
    intros a b Hab. unfold olderShape in *. cbn. Lqa.lra.
  - apply filter_Forall. apply Forall_fmap.
    eapply Forall_impl; [exact Hle|]. intros a Ha. cbn in *. Lqa.lra.
Qed.

Lemma stepParticles_in_order grow pool :
  StronglySorted olderParticle pool →
  Forall (λ a, Particle.life a <= 1)%Q pool →
  StronglySorted olderParticle (stepParticles grow pool)
  ∧ Forall (λ a, Particle.life a <= 1)%Q (stepParticles grow pool).
Proof.
  intros Hs Hle. unfold stepParticles. split.
  - apply filter_StronglySorted.
    eapply StronglySorted_fmap; [|exact Hs].
    intros a b Hab. unfold olderParticle in *. cbn. Lqa.lra.
  - apply filter_Forall. apply Forall_fmap.
    eapply Forall_impl; [exact Hle|]. intros a Ha. cbn in *. Lqa.lra.
Qed.

Lemma Fill_handle_pushes random window x y canvas t s :
  let s' :=
    stateAfter (Fill.handleInteractionLogic random window x y canvas t s) in
  (∃ new, Fill.shapesRef s' = Fill.shapesRef s ++ new
          ∧ Forall (λ a, Shape.life a = 1%Q) new)
  ∧ (∃ new, Fill.particlesRef s' = Fill.particlesRef s ++ new
            ∧ Forall (λ a, Particle.life a = 1%Q) new).
Proof.
  unfold Fill.handleInteractionLogic.
  destruct (Fill.generateScale _).
  2:{ split; exists []; by rewrite app_nil_r. }
  destruct (pushEach_Forall (λ a, Shape.life a = 1%Q) 3
              (createShape random x y) (Fill.shapesRef s) (Fill.draws s)
              ltac:(done)) as (news & Hs & _ & Hns).
  destruct (pushEach 3 _ _ _) as [shapes k].
  destruct (pushEach_Forall (λ a, Particle.life a = 1%Q) 2
              (createParticle random x y) (Fill.particlesRef s) k
              ltac:(done)) as (newp & Hp & _ & Hnp).
  destruct (pushEach 2 _ _ _) as [particles k'].
  cbn [fst] in Hs, Hp.
  subst shapes particles.
  split_handler; cbn [stateAfter outcome fst Fill.shapesRef Fill.particlesRef];
    (split; eauto).
Qed.

Lemma Fill_step_in_order random window canvas s e :
  (StronglySorted olderShape (Fill.shapesRef s)
   ∧ Forall (λ a, Shape.life a <= 1)%Q (Fill.shapesRef s))
  ∧ (StronglySorted olderParticle (Fill.particlesRef s)
     ∧ Forall (λ a, Particle.life a <= 1)%Q (Fill.particlesRef s)) →
  let s' := Fill.step random window canvas s e in
  (StronglySorted olderShape (Fill.shapesRef s')
   ∧ Forall (λ a, Shape.life a <= 1)%Q (Fill.shapesRef s'))
  ∧ (StronglySorted olderParticle (Fill.particlesRef s')
     ∧ Forall (λ a, Particle.life a <= 1)%Q (Fill.particlesRef s')).
Proof.
  intros [[Hs Hsl] [Hp Hpl]]. destruct e as [x y t|now]; cbn [Fill.step].
  - destruct (Fill_handle_pushes random window x y canvas t s)
      as [(news & -> & Hns) (newp & -> & Hnp)].
    split.
    + by apply (fresh_behind_aged Shape.life).
    + by apply (fresh_behind_aged Particle.life).
  - unfold Fill.animate. destruct (drawCellHighlights _ _ _); [|done].
    cbn [outcome Fill.shapesRef Fill.particlesRef].
    destruct (stepShapes_in_order _ Hs Hsl) as [Hs' Hsl'].
    destruct (stepParticles_in_order 0.05 _ Hp Hpl) as [Hp' Hpl'].
    split; split;
      first [by apply trim_StronglySorted | by apply trim_Forall].
Qed.

(** X4.  On a canvas of positive height (on one of height 0 a frame does
    not get past drawing the grid), whatever pointer moves and frames the
    page has seen, each pool is in order of age: no shape has more life
    left than a shape behind it in the pool, and likewise for the
    particles.  So the entries that the trim discards, the first ones, are
    those nearest to their end. *)
Theorem pools_stay_in_order_of_age
  (random : nat → Q) (window : Window) (canvas : Canvas)
  (events : list Fill.Event) :
  (0 < height canvas)%Q →
  let s := Fill.run random window canvas events Fill.initial in
  StronglySorted olderShape (Fill.shapesRef s)
  ∧ StronglySorted olderParticle (Fill.particlesRef s).
Proof.
  intros _. cbn zeta. unfold Fill.run.
  assert (H : (StronglySorted olderShape (Fill.shapesRef Fill.initial)
               ∧ Forall (λ a, Shape.life a <= 1)%Q
                   (Fill.shapesRef Fill.initial))
              ∧ (StronglySorted olderParticle
                   (Fill.particlesRef Fill.initial)
                 ∧ Forall (λ a, Particle.life a <= 1)%Q
                     (Fill.particlesRef Fill.initial))).
  { repeat split; constructor. }
  revert H. generalize Fill.initial.
  induction events as [|e events IH]; intros s H; cbn [foldl].
  - destruct H as [[? _] [? _]]. done.
  - apply IH. by apply Fill_step_in_order.
Qed.

Lemma pools_stay_in_order_of_age_witness :
  StronglySorted olderShape
    (Fill.shapesRef
       (Fill.run (λ _, 0.5%Q) (mkWindow true (Some constructs) 1600 800 1)
          (mkCanvas 1600 800) (Fill.rounds 2 1000) Fill.initial)).
Proof.
  destruct (pools_stay_in_order_of_age (λ _, 0.5%Q)
              (mkWindow true (Some constructs) 1600 800 1)
              (mkCanvas 1600 800) (Fill.rounds 2 1000)) as [H _].
  - reflexivity.
  - exact H.
Defined.

(** X5.  A frame of the fixed grid, on a canvas of positive height, adds
    nothing to a pool, and every shape and particle it leaves in a pool has
    life above 0, with the opacity the square of that life. *)
Theorem frame_keeps_only_the_living canvas now s :
  (0 < height canvas)%Q →
  let s' := Fixed.animate canvas now s in
  (length (Fixed.shapesRef s') ≤ length (Fixed.shapesRef s))%nat
  ∧ (length (Fixed.particlesRef s') ≤ length (Fixed.particlesRef s))%nat
  ∧ Forall (λ a, (0 < Shape.life a)%Q ∧ Shape.alpha a = (Shape.life a ^ 2)%Q)
      (Fixed.shapesRef s')
  ∧ Forall (λ p, (0 < Particle.life p)%Q
                 ∧ Particle.alpha p = (Particle.life p ^ 2)%Q)
      (Fixed.particlesRef s').
Proof.
  intros _. cbn zeta. unfold Fixed.animate.
  cbn [Fixed.shapesRef Fixed.particlesRef].
  split; [|split; [|split]].
  - etrans; [apply trim_no_longer|]. unfold stepShapes.
    etrans; [apply List.filter_length_le|]. by rewrite length_fmap.
  - etrans; [apply trim_no_longer|]. unfold stepParticles.
    etrans; [apply List.filter_length_le|]. by rewrite length_fmap.
  - apply trim_Forall. unfold stepShapes.
    apply Forall_and. split.
    + eapply Forall_impl; [apply filter_Forall_true|].
      intros a Ha. cbn beta in Ha. by apply Qgtb_true in Ha.
    + apply filter_Forall. apply Forall_fmap, Forall_true. done.
  - apply trim_Forall. unfold stepParticles.
    apply Forall_and. split.
    + eapply Forall_impl; [apply filter_Forall_true|].
      intros a Ha. cbn beta in Ha. by apply Qgtb_true in Ha.
    + apply filter_Forall. apply Forall_fmap, Forall_true. done.
Qed.

Lemma frame_keeps_only_the_living_witness :
  Forall (λ a, (0 < Shape.life a)%Q ∧ Shape.alpha a = (Shape.life a ^ 2)%Q)
    (Fixed.shapesRef
       (Fixed.animate (mkCanvas 1600 700) 1016
          (stateAfter (Fixed.handleInteractionLogic (λ _, 0.5%Q)
                         (mkWindow true (Some constructs) 1600 700 1)
                         150 150 (mkCanvas 1600 700) 1000
                         (Fixed.mount Fixed.initial))))).
Proof.
  destruct (frame_keeps_only_the_living (mkCanvas 1600 700) 1016
              (stateAfter (Fixed.handleInteractionLogic (λ _, 0.5%Q)
                             (mkWindow true (Some constructs) 1600 700 1)
                             150 150 (mkCanvas 1600 700) 1000
                             (Fixed.mount Fixed.initial))))
    as (_ & _ & H & _).
  - reflexivity.
  - exact H.
Defined.

(** ** The rate limit over a whole run *)

Lemma Fixed_last_sound_moves_on random window x y canvas t s :
  let s' :=
    stateAfter (Fixed.handleInteractionLogic random window x y canvas t s) in
  Fixed.lastSoundTimeRef s' = Fixed.lastSoundTimeRef s
  ∨ (Fixed.lastSoundTimeRef s' = t
     ∧ Fixed.lastSoundTimeRef s + 100 < t).
Proof.
  unfold Fixed.handleInteractionLogic.
  destruct (elapsed100 t (Fixed.lastSoundTimeRef s)) eqn:E.
  - apply Z.ltb_lt in E.
    split_handler; cbn [stateAfter outcome fst Fixed.lastSoundTimeRef];
      first [by left | right; split; [done|lia]].
  - split_handler; by left.
Qed.

Lemma firings_app log log' :
  FixedPage.firings (log ++ log')
  = FixedPage.firings log ++ FixedPage.firings log'.
Proof. unfold FixedPage.firings. by rewrite List.filter_app, fmap_app. Qed.

(** X6.  Over any run of pointer moves and frames of the fixed grid on a
    canvas of positive height, in whatever cells and with whatever clock
    readings, the times at which an oscillator starts are pairwise more
    than 100 ms apart, each later one above the earlier, and all are more
    than 100 ms after the initial [lastSoundTimeRef]. *)
Theorem firings_more_than_100ms_apart
  (random : nat → Q) (window : Window) (canvas : Canvas)
  (events : list FixedPage.Event) (s : Fixed.State) :
  (0 < height canvas)%Q →
  let result := FixedPage.run random window canvas events s in
  StronglySorted (λ earlier later, earlier + 100 < later)
    (FixedPage.firings (snd result))
  ∧ Forall (λ t, Fixed.lastSoundTimeRef s + 100 < t)
      (FixedPage.firings (snd result)).
Proof.
  intros _.
  revert s. induction events as [|e events IH]; intros s; cbn [FixedPage.run].
  - split; constructor.
  - destruct e as [x y t|now]; cbn [FixedPage.step].
    + set (r := Fixed.handleInteractionLogic random window x y canvas t s).
      specialize (IH (stateAfter r)).
      destruct (FixedPage.run random window canvas events (stateAfter r))
        as [s'' log'].
      cbn [snd] in *. destruct IH as [Hsorted Hafter].
      rewrite firings_app.
      pose proof (Fixed_last_sound_moves_on random window x y canvas t s)
        as Hlast.
      pose proof (Fixed_tone_stamps random window x y canvas t s) as Hstamp.
      fold r in Hlast, Hstamp. cbn zeta in Hlast, Hstamp.
      unfold FixedPage.firings at 1 3. cbn [List.filter snd].
      destruct (tones (emitted r)) as [|e l] eqn:Htones; cbn [fmap list_fmap fst app].
      * split; [done|].
        eapply Forall_impl; [exact Hafter|]. intros t' Ht'. cbn beta in Ht'.
        destruct Hlast as [Hl|[Hl ?]]; rewrite Hl in Ht'; lia.
      * destruct Hstamp as [Hset Hopen]; [done|].
        apply Z.ltb_lt in Hopen. rewrite Hset in Hafter.
        split.
        -- constructor; [done|]. exact Hafter.
        -- constructor; [lia|].
           eapply Forall_impl; [exact Hafter|]. intros t' Ht'.
           cbn beta in Ht'. lia.
    + specialize (IH (Fixed.animate canvas now s)).
      destruct (FixedPage.run random window canvas events
                  (Fixed.animate canvas now s)) as [s'' log'].
      exact IH.
Qed.

Lemma firings_more_than_100ms_apart_witness :
  FixedPage.firings
    (snd (FixedPage.run (λ _, 0.5%Q)
            (mkWindow true (Some constructs) 1600 700 1) (mkCanvas 1600 700)
            [FixedPage.pointer 150 150 1000; FixedPage.pointer 250 150 1050;
             FixedPage.tick 1066; FixedPage.pointer 350 150 1101;
             FixedPage.pointer 50 250 1300]
            (Fixed.mount Fixed.initial)))
  = [1000; 1101; 1300]
  ∧ StronglySorted (λ earlier later, earlier + 100 < later) [1000; 1101; 1300].
Proof.
  split; [vm_compute; reflexivity|].
  destruct (firings_more_than_100ms_apart (λ _, 0.5%Q)
              (mkWindow true (Some constructs) 1600 700 1) (mkCanvas 1600 700)
              [FixedPage.pointer 150 150 1000; FixedPage.pointer 250 150 1050;
               FixedPage.tick 1066; FixedPage.pointer 350 150 1101;
               FixedPage.pointer 50 250 1300]
              (Fixed.mount Fixed.initial)) as [H _].
  - reflexivity.
  - exact H.
Defined.

(** ** The audio context *)

Lemma Fixed_handle_keeps_context random window x y canvas t s :
  Fixed.audioContextRef s = true →
  Fixed.audioContextRef
    (stateAfter (Fixed.handleInteractionLogic random window x y canvas t s))
  = true.
Proof.
  intros Hctx. unfold Fixed.handleInteractionLogic, playDrum, playSound,
    acquireContext.
  rewrite Hctx.
  destruct (pushEach 3 _ _ _) as [shapes k].
  destruct (pushEach 2 _ _ _) as [particles k'].
  repeat match goal with
    | |- context [if ?b then _ else _] => destruct b
    | |- context [match volumeAt ?y ?c with _ => _ end] =>
        destruct (volumeAt y c)
    | |- context [match JS.get ?l ?i with _ => _ end] => destruct (JS.get l i)
    end; done.
Qed.

(** X7.  Once an audio context exists it is kept: over any run of the
    fixed grid, on a canvas of positive height, that starts with a context,
    [audioContextRef] still holds one at the end, and no pointer move of the
    run logs that [AudioContext] is not supported. *)
Theorem audio_context_is_kept
  (random : nat → Q) (window : Window) (canvas : Canvas)
  (events : list FixedPage.Event) (s : Fixed.State) :
  (0 < height canvas)%Q →
  Fixed.audioContextRef s = true →
  let result := FixedPage.run random window canvas events s in
  Fixed.audioContextRef (fst result) = true
  ∧ Forall (λ entry, warn "AudioContext not supported" ∉ snd entry)
      (snd result).
Proof.
  intros _.
  revert s. induction events as [|e events IH]; intros s Hctx;
    cbn [FixedPage.run].
  - split; [done|constructor].
  - destruct e as [x y t|now]; cbn [FixedPage.step].
    + pose proof (Fixed_handle_keeps_context random window x y canvas t s Hctx)
        as Hkept.
      specialize (IH _ Hkept).
      destruct (FixedPage.run random window canvas events _) as [s'' log'].
      cbn [fst snd app] in *. destruct IH as [IH1 IH2].
      split; [done|]. constructor; [|done].
      cbn [snd]. clear IH1 IH2 Hkept.
      unfold Fixed.handleInteractionLogic, playDrum, playSound,
        acquireContext.
      rewrite Hctx.
      destruct (pushEach 3 _ _ _) as [shapes k].
      destruct (pushEach 2 _ _ _) as [particles k'].
      repeat match goal with
        | |- context [if ?b then _ else _] => destruct b
        | |- context [match volumeAt ?y ?c with _ => _ end] =>
            destruct (volumeAt y c)
        | |- context [match JS.get ?l ?i with _ => _ end] =>
            destruct (JS.get l i)
        end; cbn [emitted outcome snd];
        rewrite ?elem_of_cons, ?elem_of_nil; intros H;
        repeat destruct H as [H|H]; try done.
    + specialize (IH (Fixed.animate canvas now s) Hctx).
      destruct (FixedPage.run random window canvas events _) as [s'' log'].
      exact IH.
Qed.

Lemma audio_context_is_kept_witness :
  let window := mkWindow true None 1600 700 1 in
  let s :=
    stateAfter (Fixed.handleInteractionLogic (λ _, 0.5%Q)
                  (mkWindow true (Some constructs) 1600 700 1)
                  150 150 (mkCanvas 1600 700) 1000
                  (Fixed.mount Fixed.initial)) in
  Fixed.audioContextRef
    (fst (FixedPage.run (λ _, 0.5%Q) window (mkCanvas 1600 700)
            [FixedPage.pointer 250 150 2000; FixedPage.tick 2016] s))
  = true.
Proof.
  intros window s.
  apply (audio_context_is_kept (λ _, 0.5%Q) window (mkCanvas 1600 700)).
  - reflexivity.
  - vm_compute. reflexivity.
Defined.

(** ** The highlight array *)

Lemma get_of_nat {A} (arr : list A) (j : nat) :
  JS.get arr (JS.of_Z (Z.of_nat j)) = arr !! j.
Proof.
  unfold JS.get. rewrite as_index_of_Z by lia.
  cbn [mbind option_bind]. by rewrite Nat2Z.id.
Qed.

Lemma readSlot_set_other {A} (arr : list (option A)) (i : JS.num) v (j : nat) :
  JS.as_index i ≠ Some j →
  readSlot (JS.set arr i v) (JS.of_Z (Z.of_nat j))
  = readSlot arr (JS.of_Z (Z.of_nat j)).
Proof.
  intros Hne. unfold readSlot, JS.set. rewrite !get_of_nat.
  destruct (JS.as_index i) as [n|]; [|done].
  assert (n ≠ j) by congruence.
  rewrite list_lookup_insert_ne by done.
  destruct (decide (j < length arr)%nat) as [Hj|Hj].
  - by rewrite lookup_app_l.
  - rewrite lookup_app_r by lia. rewrite (lookup_ge_None_2 arr j) by lia.
    destruct (replicate _ _ !! _) as [o|] eqn:E; [|done].
    apply lookup_replicate in E as [-> _]. done.
Qed.

Lemma set_length_within {A} (arr : list (option A)) (i : JS.num) v (n : nat) :
  JS.as_index i = Some n → (n < length arr)%nat →
  length (JS.set arr i v) = length arr.
Proof.
  intros Hi Hn. unfold JS.set. rewrite Hi.
  rewrite length_insert, length_app, length_replicate. lia.
Qed.

Lemma drawCellHighlights_fixed_length now cells :
  ∃ cells', drawCellHighlights (JS.of_Z (Fixed.rows * Fixed.columns)) now cells
            = Some cells'
            ∧ length cells' = 112%nat.
Proof.
  unfold drawCellHighlights.
  destruct (JS.len cells =? _)%js eqn:E.
  - eexists. split; [reflexivity|]. rewrite length_fmap.
    unfold JS.len in E. rewrite eqb_of_Z in E. apply Z.eqb_eq in E.
    change (Fixed.rows * Fixed.columns) with 112 in E. lia.
  - unfold JS.set_length. rewrite as_index_of_Z by done.
    change (Z.to_nat (Fixed.rows * Fixed.columns)) with 112%nat.
    change (Z.of_nat 112 <? 2 ^ 32) with true. cbv iota.
    eexists. split; [reflexivity|].
    rewrite length_fmap, length_app, length_take, length_replicate. lia.
Qed.

(** What a pointer move does to the highlight array. *)
Lemma Fixed_cells_after random window x y canvas t s :
  let cell := Fixed.cellAt x y canvas in
  let s' :=
    stateAfter (Fixed.handleInteractionLogic random window x y canvas t s) in
  (Fixed.noteRegion (fst cell) (snd cell) = false
   ∧ Fixed.cellHighlightsRef s' = Fixed.cellHighlightsRef s)
  ∨ (Fixed.noteRegion (fst cell) (snd cell) = true
     ∧ Fixed.cellHighlightsRef s'
       = JS.set (Fixed.cellHighlightsRef s)
           (Fixed.cellIndexOf (fst cell) (snd cell)) (flash t)).
Proof.
  unfold Fixed.cellAt, Fixed.handleInteractionLogic. cbn [fst snd].
  destruct (Fixed.noteRegion _ _) eqn:Hnote.
  - right. split; [done|].
    destruct (Fixed_noteRegion_exclusive _ _ Hnote) as [-> ->].
    split_handler; done.
  - left. split; [done|]. split_handler; done.
Qed.

Lemma Fixed_note_index x y canvas :
  Fixed.noteRegion (fst (Fixed.cellAt x y canvas))
    (snd (Fixed.cellAt x y canvas)) = true →
  ∃ zx zy,
    Fixed.cellAt x y canvas = (JS.of_Z zx, JS.of_Z zy)
    ∧ 1 ≤ zx ≤ 14 ∧ 1 ≤ zy ≤ 5
    ∧ JS.as_index (Fixed.cellIndexOf (fst (Fixed.cellAt x y canvas))
                     (snd (Fixed.cellAt x y canvas)))
      = Some (Z.to_nat (zy * 16 + zx)).
Proof.
  unfold Fixed.cellAt. cbn [fst snd]. intros Hnote.
  destruct (Fixed_noteRegion_numbered _ _ Hnote)
    as (zx & zy & -> & -> & Hx & Hy).
  exists zx, zy. split; [done|]. split; [done|]. split; [done|].
  unfold Fixed.cellIndexOf, Fixed.columns.
  rewrite of_Z_mul, of_Z_add. apply as_index_of_Z. lia.
Qed.

(** X8.  A pointer move of the fixed grid touches no highlight but the one
    of the cell under the pointer: outside the note region the array is
    left as it is, and in any case every other slot reads as before. *)
Theorem pointer_touches_one_highlight
  (random : nat → Q) (window : Window) x y canvas t s (j : nat) :
  let cell := Fixed.cellAt x y canvas in
  let s' :=
    stateAfter (Fixed.handleInteractionLogic random window x y canvas t s) in
  JS.as_index (Fixed.cellIndexOf (fst cell) (snd cell)) ≠ Some j →
  readSlot (Fixed.cellHighlightsRef s') (JS.of_Z (Z.of_nat j))
  = readSlot (Fixed.cellHighlightsRef s) (JS.of_Z (Z.of_nat j))
  ∧ (Fixed.noteRegion (fst cell) (snd cell) = false →
     Fixed.cellHighlightsRef s' = Fixed.cellHighlightsRef s).
Proof.
  intros cell s' Hother. subst cell s'.
  destruct (Fixed_cells_after random window x y canvas t s)
    as [[Hout Hsame]|[Hnote Hset]].
  - split; [by rewrite Hsame | done].
  - split; [|congruence].
    rewrite Hset. by apply readSlot_set_other.
Qed.

Lemma pointer_touches_one_highlight_witness :
  let s := Fixed.mount Fixed.initial in
  let s' :=
    stateAfter (Fixed.handleInteractionLogic (λ _, 0.5%Q)
                  (mkWindow true (Some constructs) 1600 700 1)
                  150 150 (mkCanvas 1600 700) 1000 s) in
  readSlot (Fixed.cellHighlightsRef s') $18
  = readSlot (Fixed.cellHighlightsRef s) $18.
Proof.
  intros s s'.
  destruct (pointer_touches_one_highlight (λ _, 0.5%Q)
              (mkWindow true (Some constructs) 1600 700 1)
              150 150 (mkCanvas 1600 700) 1000 s 18) as [H _].
  - vm_compute. discriminate.
  - exact H.
Defined.

Lemma Fixed_step_keeps_112 random window canvas s e :
  length (Fixed.cellHighlightsRef s) = 112%nat →
  length (Fixed.cellHighlightsRef (fst (FixedPage.step random window canvas s e)))
  = 112%nat.
Proof.
  intros Hlen. destruct e as [x y t|now]; cbn [FixedPage.step fst].
  - destruct (Fixed_cells_after random window x y canvas t s)
      as [[_ ->]|[Hnote ->]]; [done|].
    destruct (Fixed_note_index x y canvas Hnote) as (zx & zy & _ & ? & ? & Hi).
    rewrite (set_length_within _ _ _ _ Hi); [done|]. lia.
  - unfold Fixed.animate. cbn [Fixed.cellHighlightsRef].
    destruct (drawCellHighlights_fixed_length now (Fixed.cellHighlightsRef s))
      as (cells' & -> & Hcells'). done.
Qed.

(** X9.  On a canvas of positive height, from the first frame on, the
    highlight array of the fixed grid has exactly the 112 slots of the
    grid, whatever pointer moves and frames follow: no pointer move writes
    past the grid. *)
Theorem highlight_array_has_112_slots
  (random : nat → Q) (window : Window) (canvas : Canvas) (now : Z)
  (events : list FixedPage.Event) (s : Fixed.State) :
  (0 < height canvas)%Q →
  length (Fixed.cellHighlightsRef
            (fst (FixedPage.run random window canvas events
                    (Fixed.animate canvas now s))))
  = 112%nat.
Proof.
  intros _.
  assert (Hfirst : length (Fixed.cellHighlightsRef (Fixed.animate canvas now s))
                   = 112%nat).
  { unfold Fixed.animate. cbn [Fixed.cellHighlightsRef].
    destruct (drawCellHighlights_fixed_length now (Fixed.cellHighlightsRef s))
      as (cells' & -> & Hcells'). done. }
  revert Hfirst. generalize (Fixed.animate canvas now s). clear s.
  induction events as [|e events IH]; intros s Hlen; cbn [FixedPage.run].
  - done.
  - pose proof (Fixed_step_keeps_112 random window canvas s e Hlen) as Hstep.
    destruct (FixedPage.step random window canvas s e) as [s' log].
    specialize (IH s' Hstep).
    destruct (FixedPage.run random window canvas events s') as [s'' log'].
    exact IH.
Qed.

Lemma highlight_array_has_112_slots_witness :
  length (Fixed.cellHighlightsRef
            (fst (FixedPage.run (λ _, 0.5%Q)
                    (mkWindow true (Some constructs) 1600 700 1)
                    (mkCanvas 1600 700)
                    [FixedPage.pointer 1450 550 1000; FixedPage.tick 1016]
                    (Fixed.animate (mkCanvas 1600 700) 984
                       (Fixed.mount Fixed.initial)))))
  = 112%nat.
Proof.
  apply highlight_array_has_112_slots. reflexivity.
Defined.

(** X10.  The slot a note cell is recorded in is drawn in that same cell:
    for a pointer in a note cell, the index [cellY * columns + cellX] lies
    in the grid, and [i % columns], [Math.floor(i / columns)] give back the
    column and the row of the cell. *)
Theorem highlight_is_drawn_in_the_cell_touched x y canvas :
  Fixed.noteRegion (fst (Fixed.cellAt x y canvas))
    (snd (Fixed.cellAt x y canvas)) = true →
  ∃ i : nat,
    JS.as_index (Fixed.cellIndexOf (fst (Fixed.cellAt x y canvas))
                   (snd (Fixed.cellAt x y canvas))) = Some i
    ∧ (i < 112)%nat
    ∧ Fixed.cellAt x y canvas
      = (JS.of_Z (fst (FixedPage.highlightCell i)),
         JS.of_Z (snd (FixedPage.highlightCell i))).
Proof.
  intros Hnote.
  destruct (Fixed_note_index x y canvas Hnote)
    as (zx & zy & Hcell & Hx & Hy & Hi).
  exists (Z.to_nat (zy * 16 + zx)). split; [done|]. split; [lia|].
  rewrite Hcell. unfold FixedPage.highlightCell, Fixed.columns. cbn [fst snd].
  rewrite Z2Nat.id by lia.
  replace ((zy * 16 + zx) mod 16) with zx
    by (rewrite Z.add_comm, Z.mod_add by lia; by rewrite Z.mod_small by lia).
  replace ((zy * 16 + zx) / 16) with zy
    by (rewrite Z.add_comm, Z.div_add by lia; rewrite Z.div_small by lia; lia).
  done.
Qed.

Lemma highlight_is_drawn_in_the_cell_touched_witness :
  ∃ i : nat,
    JS.as_index (Fixed.cellIndexOf (fst (Fixed.cellAt 250 350 (mkCanvas 1600 700)))
                   (snd (Fixed.cellAt 250 350 (mkCanvas 1600 700)))) = Some i
    ∧ (i < 112)%nat.
Proof.
  destruct (highlight_is_drawn_in_the_cell_touched 250 350 (mkCanvas 1600 700))
    as (i & Hi & Hlt & _).
  - vm_compute. reflexivity.
  - exists i. split; [exact Hi | exact Hlt].
Defined.

(** X11.  A flash and the frames after it: after a pointer move in a note
    cell at time [t], the frame at time [now], up to 500 ms later, leaves
    that cell with opacity [1 - (now - t) / 500] and scale
    [1 + 0.2 * opacity], whatever the cell held before. *)
Theorem flash_then_frame
  (random : nat → Q) (window : Window) x y canvas t now s :
  Fixed.noteRegion (fst (Fixed.cellAt x y canvas))
    (snd (Fixed.cellAt x y canvas)) = true →
  0 ≤ now - t ≤ 500 →
  let s' :=
    Fixed.animate canvas now
      (stateAfter (Fixed.handleInteractionLogic random window x y canvas t s))
  in
  ∃ h,
    readSlot (Fixed.cellHighlightsRef s')
      (Fixed.cellIndexOf (fst (Fixed.cellAt x y canvas))
         (snd (Fixed.cellAt x y canvas))) = Some h
    ∧ CellHighlight.time h = t
    ∧ (CellHighlight.alpha h == 1 - inject_Z (now - t) / 500)%Q
    ∧ (CellHighlight.scale h == 1 + 0.2 * CellHighlight.alpha h)%Q.
Proof.
  intros Hnote Hnow s'.
  destruct (Fixed_note_index x y canvas Hnote) as (zx & zy & _ & Hx & Hy & Hi).
  destruct (Fixed_cells_after random window x y canvas t s)
    as [[Hout _]|[_ Hset]]; [congruence|].
  assert (Hslot : Fixed.cellHighlightsRef
                    (stateAfter (Fixed.handleInteractionLogic random window
                                   x y canvas t s))
                  !! Z.to_nat (zy * 16 + zx) = Some (Some (flash t))).
  { rewrite Hset. unfold JS.set. rewrite Hi.
    apply list_lookup_insert_eq.
    rewrite length_app, length_replicate. lia. }
  assert (Hin : (Z.to_nat (zy * 16 + zx) < 112)%nat) by lia.
  destruct (drawCellHighlights_fixed_grid now _ _ _ Hin Hslot)
    as (cells' & Hdraw & Hcells').
  destruct (fadeHighlight_active now (flash t) ltac:(reflexivity))
    as (h & Hh & Htime & _ & Hearly).
  exists h. unfold s', Fixed.animate. cbn [Fixed.cellHighlightsRef].
  rewrite Hdraw. unfold readSlot, JS.get. rewrite Hi.
  cbn [mbind option_bind]. rewrite Hcells', Hh.
  split; [done|]. split; [done|].
  cbn [flash CellHighlight.time] in Hearly.
  destruct Hearly as [Ha Hs]; [lia|].
  split; [done|]. by rewrite Hs, Ha.
Qed.

Lemma flash_then_frame_witness :
  ∃ h,
    readSlot
      (Fixed.cellHighlightsRef
         (Fixed.animate (mkCanvas 1600 700) 1100
            (stateAfter (Fixed.handleInteractionLogic (λ _, 0.5%Q)
                           (mkWindow true (Some constructs) 1600 700 1)
                           150 150 (mkCanvas 1600 700) 1000
                           (Fixed.mount Fixed.initial)))))
      (Fixed.cellIndexOf (fst (Fixed.cellAt 150 150 (mkCanvas 1600 700)))
         (snd (Fixed.cellAt 150 150 (mkCanvas 1600 700)))) = Some h
    ∧ (CellHighlight.alpha h == 1 - inject_Z (1100 - 1000) / 500)%Q.
Proof.
  destruct (flash_then_frame (λ _, 0.5%Q)
              (mkWindow true (Some constructs) 1600 700 1)
              150 150 (mkCanvas 1600 700) 1000 1100
              (Fixed.mount Fixed.initial))
    as (h & Hh & _ & Ha & _).
  - vm_compute. reflexivity.
  - lia.
  - exists h. split; [exact Hh | exact Ha].
Defined.

(** ** The pitches on the fixed grid *)

Lemma pitch_add (n m : nat) :
  pitch (n + m) = (pitch n * Rpower 2 (INR m / 12))%R.
Proof.
  unfold pitch. rewrite plus_INR.
  replace ((INR n + INR m) / 12)%R with (INR n / 12 + INR m / 12)%R by lra.
  rewrite Rpower_plus. lra.
Qed.

(** X12.  With the scale in place, the note cell in column [zx] (1 to 14)
    and row [zy] (1 to 5) of the fixed grid sounds at
    [130.81 * 2^(n/12)] with [n = (zy - 1) * 14 + (zx - 1)], a number below
    70 that no other note cell has; one cell to the right is one semitone
    up, one row down is 14 semitones up. *)
Theorem pitch_of_a_note_cell (s : Fixed.State) (zx zy : Z) :
  Fixed.scaleRef s = Fixed.generateScale →
  1 ≤ zx ≤ 14 → 1 ≤ zy ≤ 5 →
  let n := Z.to_nat ((zy - 1) * 14 + (zx - 1)) in
  let f := (130.81 * Rpower 2 (INR n / 12))%R in
  JS.get (Fixed.scaleRef s) (Fixed.noteIndexOf $zx $zy) = Some f
  ∧ (n < 70)%nat
  ∧ (zx < 14 →
     JS.get (Fixed.scaleRef s) (Fixed.noteIndexOf $(zx + 1) $zy)
     = Some (f * Rpower 2 (1 / 12))%R)
  ∧ (zy < 5 →
     JS.get (Fixed.scaleRef s) (Fixed.noteIndexOf $zx $(zy + 1))
     = Some (f * Rpower 2 (14 / 12))%R)
  ∧ (∀ zx' zy',
       1 ≤ zx' ≤ 14 → 1 ≤ zy' ≤ 5 →
       Fixed.noteIndexOf $zx' $zy' = Fixed.noteIndexOf $zx $zy →
       zx' = zx ∧ zy' = zy).
Proof.
  intros Hscale Hx Hy n f.
  assert (Hf : f = pitch n) by reflexivity.
  split; [|split; [lia|split; [|split]]].
  - rewrite Hf. by apply Fixed_note_frequency.
  - intros Hright.
    rewrite (Fixed_note_frequency s (zx + 1) zy) by (done || lia).
    f_equal. rewrite Hf.
    replace (Z.to_nat ((zy - 1) * 14 + (zx + 1 - 1))) with (S n) by lia.
    apply pitch_S.
  - intros Hdown.
    rewrite (Fixed_note_frequency s zx (zy + 1)) by (done || lia).
    f_equal. rewrite Hf.
    replace (Z.to_nat ((zy + 1 - 1) * 14 + (zx - 1))) with (n + 14)%nat by lia.
    rewrite pitch_add. do 2 f_equal. simpl. lra.
  - intros zx' zy' Hx' Hy'. unfold Fixed.noteIndexOf, Fixed.noteCols.
    rewrite !of_Z_sub, !of_Z_mul, !of_Z_add.
    unfold JS.of_Z. intros [= Heq]. lia.
Qed.

Lemma pitch_of_a_note_cell_witness :
  JS.get (Fixed.scaleRef (Fixed.mount Fixed.initial)) (Fixed.noteIndexOf $3 $2)
  = Some (130.81 * Rpower 2 (INR 16 / 12))%R.
Proof.
  destruct (pitch_of_a_note_cell (Fixed.mount Fixed.initial) 3 2)
    as (H & _); [reflexivity | lia | lia |].
  exact H.
Defined.

(** ** The silent rows of the fixed grid *)

(** X13.  A pointer move in the top or the bottom row of the fixed grid
    returns without a sound and without a highlight: nothing is emitted,
    the highlights, the time of the last sound and the audio context stay
    as they are; its three shapes and two particles are added all the
    same. *)
Theorem silent_rows_only_spawn
  (random : nat → Q) (window : Window) x y canvas t s :
  Fixed.silentRow (snd (Fixed.cellAt x y canvas)) = true →
  let r := Fixed.handleInteractionLogic random window x y canvas t s in
  returned r = true
  ∧ emitted r = []
  ∧ Fixed.cellHighlightsRef (stateAfter r) = Fixed.cellHighlightsRef s
  ∧ Fixed.lastSoundTimeRef (stateAfter r) = Fixed.lastSoundTimeRef s
  ∧ Fixed.audioContextRef (stateAfter r) = Fixed.audioContextRef s
  ∧ ∃ shapes particles,
      length shapes = 3%nat ∧ length particles = 2%nat
      ∧ Fixed.shapesRef (stateAfter r) = Fixed.shapesRef s ++ shapes
      ∧ Fixed.particlesRef (stateAfter r) = Fixed.particlesRef s ++ particles.
Proof.
  unfold Fixed.cellAt, Fixed.handleInteractionLogic. cbn [snd].
  intros Hsilent. rewrite Hsilent.
  destruct (pushEach_app 3 (createShape random x y)
              (Fixed.shapesRef s) (Fixed.draws s)) as (shapes & Hs & Hsl).
  destruct (pushEach 3 _ _ _) as [shapes' k].
  destruct (pushEach_app 2 (createParticle random x y)
              (Fixed.particlesRef s) k) as (particles & Hp & Hpl).
  destruct (pushEach 2 _ _ _) as [particles' k'].
  cbn [fst] in Hs, Hp.
  repeat split; try done. eauto 10.
Qed.

Lemma silent_rows_only_spawn_witness :
  emitted (Fixed.handleInteractionLogic (λ _, 0.5%Q)
             (mkWindow true (Some constructs) 1600 700 1)
             150 50 (mkCanvas 1600 700) 1000 (Fixed.mount Fixed.initial))
  = [].
Proof.
  destruct (silent_rows_only_spawn (λ _, 0.5%Q)
              (mkWindow true (Some constructs) 1600 700 1)
              150 50 (mkCanvas 1600 700) 1000 (Fixed.mount Fixed.initial))
    as (_ & H & _).
  - vm_compute. reflexivity.
  - exact H.
Defined.

(** ** The guard against a stale scale *)

Lemma Oriented_reachable_layout random window s :
  Oriented.reachable random window s →
  (Oriented.columns s = 16 ∨ Oriented.columns s = 9)
  ∧ Oriented.scaleRef s
    = Oriented.generateScale (5 * (Oriented.columns s - 2)).
Proof.
  assert (Hupdate : ∀ w s0,
    (Oriented.columns (Oriented.updateLayoutAndScale w s0) = 16
     ∨ Oriented.columns (Oriented.updateLayoutAndScale w s0) = 9)
    ∧ Oriented.scaleRef (Oriented.updateLayoutAndScale w s0)
      = Oriented.generateScale
          (5 * (Oriented.columns (Oriented.updateLayoutAndScale w s0) - 2))).
  { intros w s0. split; [|done].
    cbn [Oriented.updateLayoutAndScale Oriented.columns].
    unfold Oriented.getLayoutParams.
    destruct (Oriented.orientationIsPortrait w); cbn; auto. }
  induction 1 as [window now | window s window' _ _
                 | window s x y t _ IH | window s now _ IH].
  - destruct (Oriented_animate_keeps_layout now
                (Oriented.updateLayoutAndScale window Oriented.initial))
      as [-> ->].
    apply Hupdate.
  - apply Hupdate.
  - destruct (Oriented_handle_keeps_layout random window x y
                (Oriented.canvas s) t s) as [Hc Hs].
    unfold stateAfter in *. by rewrite Hc, Hs.
  - destruct (Oriented_animate_keeps_layout now s) as [-> ->]. exact IH.
Qed.

Lemma Oriented_noteRegion_numbered (columns : Z) (a b : JS.num) :
  Oriented.noteRegion columns (JS.floor a) (JS.floor b) = true →
  ∃ zx zy, JS.floor a = JS.of_Z zx ∧ JS.floor b = JS.of_Z zy
           ∧ 1 ≤ zx ≤ columns - 2 ∧ 1 ≤ zy ≤ 5.
Proof.
  unfold Oriented.noteRegion. rewrite <- andb_assoc.
  intros [Hx Hy]%andb_true_iff.
  destruct (floor_between_numbered _ _ _ Hx) as (zx & -> & ?).
  destruct (floor_between_numbered _ _ _ Hy) as (zy & -> & ?).
  eauto 10.
Qed.

(** X14.  From the mount effect on, the guard [noteIndex < scale.length]
    of the grid that follows the orientation never turns a note cell
    away: for a pointer in the note region of the current layout the note
    index is below the length of the scale, the frequency is that of the
    scale at this index, the handler returns and the highlight of the cell
    is recorded. *)
Theorem stale_scale_guard_always_passes
  (random : nat → Q) (window : Window) (s : Oriented.State) x y canvas t :
  Oriented.reachable random window s →
  let cell := Oriented.cellAt x y canvas in
  Oriented.noteRegion (Oriented.columns s) (fst cell) (snd cell) = true →
  let noteIndex := Oriented.noteIndexOf (Oriented.columns s) (fst cell) (snd cell) in
  let r := Oriented.handleInteractionLogic random window x y canvas t s in
  (noteIndex <? JS.len (Oriented.scaleRef s))%js = true
  ∧ (∃ n : nat, JS.as_index noteIndex = Some n
                ∧ JS.get (Oriented.scaleRef s) noteIndex
                  = Some (130.81 * Rpower 2 (INR n / 12))%R)
  ∧ returned r = true
  ∧ readSlot (Oriented.cellHighlightsRef (stateAfter r))
      (Oriented.cellIndexOf (Oriented.columns s) (fst cell) (snd cell))
    = Some (flash t).
Proof.
  intros Hreach cell Hnote noteIndex r. subst cell noteIndex r.
  destruct (Oriented_reachable_layout random window s Hreach)
    as [Hcols Hscale].
  unfold Oriented.cellAt in *. cbn [fst snd] in *.
  destruct (Oriented_noteRegion_numbered _ _ _ Hnote)
    as (zx & zy & Hzx & Hzy & Hx & Hy).
  unfold Oriented.handleInteractionLogic.
  rewrite Hnote. rewrite Hzx, Hzy in *.
  assert (Hrow : Oriented.silentRow $zy = false).
  { unfold Oriented.silentRow, Oriented.rows. rewrite !eqb_of_Z.
    apply orb_false_iff; split; apply Z.eqb_neq; lia. }
  assert (Hdrum : Oriented.drumColumn (Oriented.columns s) $zx = false).
  { unfold Oriented.drumColumn. rewrite !eqb_of_Z.
    apply orb_false_iff; split; apply Z.eqb_neq; lia. }
  rewrite Hrow, Hdrum.
  set (c := Oriented.columns s) in *.
  assert (Hidx : Oriented.noteIndexOf c $zx $zy
                 = JS.of_Z ((zy - 1) * (c - 2) + (zx - 1))).
  { unfold Oriented.noteIndexOf. by rewrite !of_Z_sub, of_Z_mul, of_Z_add. }
  assert (Hlen : JS.len (Oriented.scaleRef s) = JS.of_Z (5 * (c - 2))).
  { rewrite Hscale. unfold JS.len, Oriented.generateScale, generateScale.
    rewrite tabulate_length. f_equal. lia. }
  assert (Hbelow : (zy - 1) * (c - 2) + (zx - 1) < 5 * (c - 2))
    by (destruct Hcols as [Hc|Hc]; rewrite Hc in *; lia).
  assert (Hnonneg : 0 ≤ (zy - 1) * (c - 2) + (zx - 1))
    by (destruct Hcols as [Hc|Hc]; rewrite Hc in *; lia).
  assert (Hguard : (Oriented.noteIndexOf c $zx $zy
                    <? JS.len (Oriented.scaleRef s))%js = true).
  { rewrite Hidx, Hlen, ltb_of_Z. by apply Z.ltb_lt. }
  rewrite Hguard.
  assert (Hcell : JS.as_index (Oriented.cellIndexOf c $zx $zy)
                  = Some (Z.to_nat (zy * c + zx))).
  { unfold Oriented.cellIndexOf. rewrite of_Z_mul, of_Z_add.
    apply as_index_of_Z. destruct Hcols as [Hc|Hc]; rewrite Hc in *; lia. }
  split; [done|]. split.
  - exists (Z.to_nat ((zy - 1) * (c - 2) + (zx - 1))).
    rewrite Hidx. split; [by apply as_index_of_Z|].
    unfold JS.get. rewrite as_index_of_Z by done. cbn [mbind option_bind].
    change (Some (130.81 * Rpower 2
                    (INR (Z.to_nat ((zy - 1) * (c - 2) + (zx - 1))) / 12))%R)
      with (Some (pitch (Z.to_nat ((zy - 1) * (c - 2) + (zx - 1))))).
    rewrite Hscale. unfold Oriented.generateScale, generateScale.
    apply tabulate_lookup. lia.
  - destruct (pushEach 3 _ _ _) as [shapes k].
    destruct (pushEach 2 _ _ _) as [particles k'].
    destruct (elapsed100 _ _);
      [destruct (playSound _ _ _ _) as [audio out]|];
      cbn [returned stateAfter outcome fst Oriented.cellHighlightsRef];
      (split; [done|]); unfold readSlot;
      by rewrite (get_set_same _ _ _ _ Hcell).
Qed.

Lemma stale_scale_guard_always_passes_witness :
  let portrait := mkWindow true (Some constructs) 700 1600 1 in
  let s :=
    outcome (Oriented.animate 1000
               (Oriented.updateLayoutAndScale portrait Oriented.initial)) in
  readSlot
    (Oriented.cellHighlightsRef
       (stateAfter (Oriented.handleInteractionLogic (λ _, 0.5%Q) portrait
                      650 1300 (Oriented.canvas s) 2000 s)))
    (Oriented.cellIndexOf (Oriented.columns s)
       (fst (Oriented.cellAt 650 1300 (Oriented.canvas s)))
       (snd (Oriented.cellAt 650 1300 (Oriented.canvas s))))
  = Some (flash 2000).
Proof.
  intros portrait s.
  destruct (stale_scale_guard_always_passes (λ _, 0.5%Q) portrait s
              650 1300 (Oriented.canvas s) 2000) as (_ & _ & _ & H).
  - apply Oriented.reach_mount.
  - vm_compute. reflexivity.
  - exact H.
Defined.

(** ** The grids whose scale is made for each pointer move *)

Lemma scale_of_length (total : Z) scale :
  generateScale <$> JS.array_length (JS.of_Z total) = Some scale →
  scale = generateScale (Z.to_nat total).
Proof.
  unfold JS.array_length, JS.of_Z. rewrite Qfloor_Z.
  destruct (total <? 2 ^ 32); [|done]. by intros [= <-].
Qed.

(** X15.  In the grid that fills the canvas, a pointer inside the grid
    always finds its note: when the handler returns and more than 100 ms
    have passed since the last sound, [playSound] is called with the
    frequency [130.81 * 2^(n/12)] of the cell, [n = cellY * columns +
    cellX], never with an undefined one. *)
Theorem Fill_cell_in_grid_has_its_note
  (random : nat → Q) (window : Window) x y canvas t s :
  Fill.inGrid (Fill.columnsOf canvas) (fst (Fill.cellAt x y canvas))
    (snd (Fill.cellAt x y canvas)) = true →
  100 < t - Fill.lastSoundTimeRef s →
  let r := Fill.handleInteractionLogic random window x y canvas t s in
  returned r = true →
  ∃ (n : nat) volume rest,
    JS.as_index (snd (Fill.cellAt x y canvas) * Fill.columnsOf canvas
                 + fst (Fill.cellAt x y canvas))%js = Some n
    ∧ emitted r
      = playSoundCall (Some (130.81 * Rpower 2 (INR n / 12))%R) volume :: rest
    ∧ Fill.lastSoundTimeRef (stateAfter r) = t.
Proof.
  intros Hin Hlate.
  destruct (Fill_inGrid_numbered x y canvas Hin)
    as (zx & zy & zc & Hc & Hcell & Hx & Hy).
  revert Hin. rewrite Hcell, Hc.
  unfold Fill.columnsOf, Fill.cellAt in Hc, Hcell.
  injection Hcell as Hzx Hzy.
  unfold Fill.handleInteractionLogic. cbn [fst snd]. rewrite Hc, Hzx, Hzy.
  intros Hin. rewrite Hin.
  destruct (Fill.generateScale _) as [scale|] eqn:Hscale; [|done].
  intros _.
  pose proof (Fill_scale_length zc scale ltac:(lia) Hscale) as Hlen.
  unfold Fill.generateScale in Hscale. rewrite of_Z_mul in Hscale.
  apply scale_of_length in Hscale.
  assert (Hidx : ($zy * $zc + $zx)%js = JS.of_Z (zy * zc + zx))
    by (by rewrite of_Z_mul, of_Z_add).
  rewrite Hidx, Hlen, ltb_of_Z.
  rewrite (proj2 (Z.ltb_lt _ _)) by nia.
  assert (Hopen : elapsed100 t (Fill.lastSoundTimeRef s) = true)
    by (unfold elapsed100; apply Z.ltb_lt; lia).
  rewrite Hopen.
  assert (Hfreq : JS.get scale $(zy * zc + zx)
                  = Some (pitch (Z.to_nat (zy * zc + zx)))).
  { unfold JS.get. rewrite as_index_of_Z by nia. cbn [mbind option_bind].
    rewrite Hscale. unfold generateScale. apply tabulate_lookup.
    unfold Fill.rows. nia. }
  rewrite Hfreq.
  destruct (pushEach 3 _ _ _) as [shapes k].
  destruct (pushEach 2 _ _ _) as [particles k'].
  destruct (playSound _ _ _ _) as [audio out].
  exists (Z.to_nat (zy * zc + zx)), (volumeAt y canvas), out.
  split; [apply as_index_of_Z; nia|]. split; reflexivity.
Qed.

Lemma Fill_cell_in_grid_has_its_note_witness :
  ∃ (n : nat) volume rest,
    emitted (Fill.handleInteractionLogic (λ _, 0.5%Q)
               (mkWindow true (Some constructs) 1600 800 1)
               250 150 (mkCanvas 1600 800) 1000 Fill.initial)
    = playSoundCall (Some (130.81 * Rpower 2 (INR n / 12))%R) volume :: rest.
Proof.
  destruct (Fill_cell_in_grid_has_its_note (λ _, 0.5%Q)
              (mkWindow true (Some constructs) 1600 800 1)
              250 150 (mkCanvas 1600 800) 1000 Fill.initial)
    as (n & volume & rest & _ & H & _).
  - vm_compute. reflexivity.
  - simpl. lia.
  - vm_compute. reflexivity.
  - exists n, volume, rest. exact H.
Defined.

(** In the grids with a constant cell size every cell is numbered. *)
Lemma div_by_constant (x : Q) (c : Z) :
  0 < c → ∃ z, JS.floor (JS.Fin x / JS.of_Z c) = JS.of_Z z.
Proof.
  intros Hc. unfold JS.div, JS.of_Z.
  destruct (inject_Z c ?= 0)%Q eqn:E.
  - apply Qeq_alt in E. unfold Qeq, inject_Z in E. simpl in E. lia.
  - cbn [JS.floor]. eauto.
  - cbn [JS.floor]. eauto.
Qed.

Lemma max_of_Z (a b : Z) : JS.max $a $b = JS.of_Z (Z.max a b).
Proof.
  unfold JS.max, JS.of_Z.
  destruct (Qle_bool (inject_Z a) (inject_Z b)) eqn:E.
  - apply Qle_bool_iff in E. rewrite <- Zle_Qle in E.
    by rewrite Z.max_r.
  - apply Qle_bool_false in E. rewrite <- Zlt_Qlt in E.
    by rewrite Z.max_l by lia.
Qed.

(** X16.  In the first grid the three bottom rows are silent: a pointer
    whose row is the third from the bottom or lower plays nothing and leaves
    the time of the last sound as it is, on a canvas of any size. *)
Theorem Trail_bottom_rows_are_silent
  (random : nat → Q) (window : Window) x y canvas t s :
  (snd (Trail.cellAt x y)
   >=? JS.floor (JS.Fin (height canvas) / Trail.cellSize) - $3)%js = true →
  let r := Trail.debouncedInteractionHandler random window x y canvas t s in
  Trail.inNotes (Trail.columnsOf canvas) (Trail.effectiveRowsOf canvas)
    (fst (Trail.cellAt x y)) (snd (Trail.cellAt x y)) = false
  ∧ emitted r = []
  ∧ Trail.lastSoundTimeRef (stateAfter r) = Trail.lastSoundTimeRef s.
Proof.
  intros Hbottom r.
  assert (Hquiet : Trail.inNotes (Trail.columnsOf canvas)
                     (Trail.effectiveRowsOf canvas)
                     (fst (Trail.cellAt x y)) (snd (Trail.cellAt x y))
                   = false).
  { unfold Trail.inNotes, Trail.effectiveRowsOf, Trail.cellAt in *.
    cbn [fst snd] in *. unfold Trail.cellSize in *.
    destruct (div_by_constant y 150 ltac:(done)) as [zy Hzy].
    destruct (div_by_constant (height canvas) 150 ltac:(done)) as [zr Hzr].
    rewrite Hzy, Hzr in *. rewrite of_Z_sub in *.
    rewrite geb_of_Z in Hbottom. apply Z.leb_le in Hbottom.
    rewrite max_of_Z, ltb_of_Z, geb_of_Z.
    destruct (zy <? Z.max 0 (zr - 3)) eqn:E1; [|done].
    destruct (0 <=? zy) eqn:E2; [|done].
    apply Z.ltb_lt in E1. apply Z.leb_le in E2. lia. }
  split; [exact Hquiet|].
  destruct (Trail_outside_notes random window x y canvas t s Hquiet)
    as (H1 & H2 & _).
  split; [exact H1 | exact H2].
Qed.

Lemma Trail_bottom_rows_are_silent_witness :
  emitted (Trail.debouncedInteractionHandler (λ _, 0.5%Q)
             (mkWindow true (Some constructs) 1600 900 1)
             200 500 (mkCanvas 1600 900) 1000 Trail.initial)
  = [].
Proof.
  destruct (Trail_bottom_rows_are_silent (λ _, 0.5%Q)
              (mkWindow true (Some constructs) 1600 900 1)
              200 500 (mkCanvas 1600 900) 1000 Trail.initial)
    as (_ & H & _).
  - vm_compute. reflexivity.
  - exact H.
Defined.

(** X17.  The particle-only grid looks its frequency up without a guard,
    and never finds it undefined: for a pointer inside the grid, when the
    handler returns, five particles are added, and if more than 100 ms have
    passed since the last sound [playSound] is called with the frequency
    [130.81 * 2^(n/12)] of the cell, [n = cellY * columns + cellX]. *)
Theorem Sparks_cell_in_grid_has_its_note
  (random : nat → Q) (window : Window) x y canvas t s :
  Sparks.outside (Sparks.columnsOf canvas) (Sparks.rowsOf canvas)
    (fst (Sparks.cellAt x y)) (snd (Sparks.cellAt x y)) = false →
  let r := Sparks.debouncedInteractionHandler random window x y canvas t s in
  returned r = true →
  (∃ particles,
     length particles = 5%nat
     ∧ Sparks.particlesRef (stateAfter r) = Sparks.particlesRef s ++ particles)
  ∧ (100 < t - Sparks.lastSoundTimeRef s →
     ∃ (n : nat) volume rest,
       JS.as_index (snd (Sparks.cellAt x y) * Sparks.columnsOf canvas
                    + fst (Sparks.cellAt x y))%js = Some n
       ∧ emitted r
         = playSoundCall (Some (130.81 * Rpower 2 (INR n / 12))%R) volume
           :: rest).
Proof.
  unfold Sparks.outside, Sparks.columnsOf, Sparks.rowsOf, Sparks.cellAt,
    Sparks.debouncedInteractionHandler, Sparks.cellSize.
  cbn [fst snd].
  destruct (div_by_constant x 100 ltac:(done)) as [zx ->].
  destruct (div_by_constant y 100 ltac:(done)) as [zy ->].
  destruct (div_by_constant (width canvas) 100 ltac:(done)) as [zc ->].
  destruct (div_by_constant (height canvas) 100 ltac:(done)) as [zr ->].
  intros Hin. unfold Sparks.outside. rewrite Hin.
  rewrite !ltb_of_Z, !geb_of_Z in Hin.
  apply orb_false_iff in Hin as [Hin Hyr].
  apply orb_false_iff in Hin as [Hin Hy0].
  apply orb_false_iff in Hin as [Hx0 Hxc].
  apply Z.ltb_ge in Hx0, Hy0. apply Z.leb_gt in Hxc, Hyr.
  rewrite !of_Z_mul, of_Z_add.
  destruct (Sparks.generateScale _) as [scale|] eqn:Hscale; [|done].
  intros _. unfold Sparks.generateScale in Hscale.
  apply scale_of_length in Hscale.
  destruct (pushEach_app 5 (Sparks.createParticle random x y)
              (Sparks.particlesRef s) (Sparks.draws s))
    as (particles & Hp & Hpl).
  destruct (pushEach 5 _ _ _) as [particles' k].
  cbn [fst] in Hp. subst particles'.
  assert (Hfreq : JS.get scale $(zy * zc + zx)
                  = Some (pitch (Z.to_nat (zy * zc + zx)))).
  { unfold JS.get. rewrite as_index_of_Z by nia. cbn [mbind option_bind].
    rewrite Hscale. unfold generateScale. apply tabulate_lookup. nia. }
  destruct (elapsed100 t (Sparks.lastSoundTimeRef s)) eqn:Hopen.
  - rewrite Hfreq. destruct (playSound _ _ _ _) as [audio out].
    split; [eauto|]. intros _.
    exists (Z.to_nat (zy * zc + zx)), (volumeAt y canvas), out.
    split; [apply as_index_of_Z; nia | reflexivity].
  - split; [eauto|]. intros Hlate.
    apply Z.ltb_ge in Hopen. lia.
Qed.

Lemma Sparks_cell_in_grid_has_its_note_witness :
  ∃ particles,
    length particles = 5%nat
    ∧ Sparks.particlesRef
        (stateAfter (Sparks.debouncedInteractionHandler (λ _, 0.5%Q)
                       (mkWindow true (Some constructs) 1600 800 1)
                       250 150 (mkCanvas 1600 800) 1000 Sparks.initial))
      = Sparks.particlesRef Sparks.initial ++ particles.
Proof.
  destruct (Sparks_cell_in_grid_has_its_note (λ _, 0.5%Q)
              (mkWindow true (Some constructs) 1600 800 1)
              250 150 (mkCanvas 1600 800) 1000 Sparks.initial)
    as [H _].
  - vm_compute. reflexivity.
  - vm_compute. reflexivity.
  - exact H.
Defined.

(** ** C4: the rate limit over a run *)

Lemma lastFired_silent start t out log :
  tones out = [] → lastFired start ((t, out) :: log) = lastFired start log.
Proof.
  intros Hout. unfold lastFired, FixedPage.firings.
  cbn [List.filter snd]. by rewrite Hout.
Qed.

Lemma lastFired_heard start t out log :
  tones out ≠ [] → lastFired start ((t, out) :: log) = lastFired t log.
Proof.
  intros Hout. unfold lastFired, FixedPage.firings.
  cbn [List.filter snd]. destruct (tones out); [done|].
  cbn [fmap list_fmap fst]. rewrite last_cons.
  by destruct (last _).
Qed.

Lemma lastFired_mono a b log : a ≤ b → lastFired a log ≤ lastFired b log.
Proof. intros Hab. unfold lastFired. destruct (last _); simpl; lia. Qed.

(** A page whose steps log the pointer moves and move [lastSound] only
    forward, to the time of a pointer move. *)
Section RunOfAPage.
Context {S E : Type}.
Variable lastSound : S → Z.
Variable step : S → E → S * list (Z * list Emit).
Variable run : list E → S → S * list (Z * list Emit).
Hypothesis run_nil : ∀ s, run [] s = (s, []).
Hypothesis run_cons : ∀ e es s,
  run (e :: es) s
  = (fst (run es (fst (step s e))),
     snd (step s e) ++ snd (run es (fst (step s e)))).
Hypothesis step_log : ∀ s e,
  (snd (step s e) = [] ∧ lastSound (fst (step s e)) = lastSound s)
  ∨ ∃ t out,
      snd (step s e) = [(t, out)]
      ∧ (lastSound (fst (step s e)) = lastSound s
         ∨ (lastSound (fst (step s e)) = t ∧ lastSound s + 100 < t))
      ∧ (tones out ≠ [] → lastSound (fst (step s e)) = t).

(** [lastSound] never moves back, and it is never before the last sound
    that fired. *)
Lemma run_last_sound es s :
  lastSound s ≤ lastSound (fst (run es s))
  ∧ lastFired (lastSound s) (snd (run es s)) ≤ lastSound (fst (run es s)).
Proof.
  revert s. induction es as [|e es IH]; intros s.
  - rewrite run_nil. cbn. lia.
  - rewrite run_cons. cbn [fst snd].
    destruct (IH (fst (step s e))) as [IH1 IH2].
    destruct (step_log s e) as [[Hlog Hlast]|(t & out & Hlog & Hmove & Hstamp)];
      rewrite Hlog; cbn [app].
    + rewrite Hlast in IH1, IH2. done.
    + assert (Hle : lastSound s ≤ lastSound (fst (step s e)))
        by (destruct Hmove as [->|[-> ?]]; lia).
      split; [lia|].
      destruct (tones out) as [|e0 l] eqn:Hout.
      * rewrite lastFired_silent by done.
        pose proof (lastFired_mono _ _ (snd (run es (fst (step s e)))) Hle).
        lia.
      * rewrite lastFired_heard by (by rewrite Hout).
        rewrite Hstamp in IH2 by done. exact IH2.
Qed.

(** Where every stamp of [lastSound] comes with a sound, [lastSound] is
    the time of the last sound fired. *)
Variable good : S → Prop.
Hypothesis step_good : ∀ s e,
  good s →
  good (fst (step s e))
  ∧ ∀ t out, snd (step s e) = [(t, out)] → tones out = [] →
             lastSound (fst (step s e)) = lastSound s.

Lemma run_good es s :
  good s →
  good (fst (run es s))
  ∧ lastSound (fst (run es s)) = lastFired (lastSound s) (snd (run es s)).
Proof.
  revert s. induction es as [|e es IH]; intros s Hgood.
  - rewrite run_nil. by cbn.
  - rewrite run_cons. cbn [fst snd].
    destruct (step_good s e Hgood) as [Hgood' Hquiet].
    destruct (IH _ Hgood') as [IH1 IH2].
    split; [done|]. rewrite IH2.
    destruct (step_log s e) as [[Hlog Hlast]|(t & out & Hlog & _ & Hstamp)];
      rewrite Hlog; cbn [app].
    + by rewrite Hlast.
    + destruct (tones out) as [|e0 l] eqn:Hout.
      * rewrite lastFired_silent by done. by rewrite (Hquiet t out).
      * rewrite lastFired_heard by (by rewrite Hout).
        by rewrite Hstamp by done.
Qed.

End RunOfAPage.

(** *** The fixed grid *)

Lemma FixedPage_run_cons random window canvas e es s :
  FixedPage.run random window canvas (e :: es) s
  = (fst (FixedPage.run random window canvas es
            (fst (FixedPage.step random window canvas s e))),
     snd (FixedPage.step random window canvas s e)
     ++ snd (FixedPage.run random window canvas es
               (fst (FixedPage.step random window canvas s e)))).
Proof.
  cbn [FixedPage.run]. destruct (FixedPage.step _ _ _ _ _) as [s' log].
  cbn [fst snd]. by destruct (FixedPage.run _ _ _ _ _).
Qed.

Lemma FixedPage_step_log random window canvas s e :
  (snd (FixedPage.step random window canvas s e) = []
   ∧ Fixed.lastSoundTimeRef (fst (FixedPage.step random window canvas s e))
     = Fixed.lastSoundTimeRef s)
  ∨ ∃ t out,
      snd (FixedPage.step random window canvas s e) = [(t, out)]
      ∧ (Fixed.lastSoundTimeRef
           (fst (FixedPage.step random window canvas s e))
         = Fixed.lastSoundTimeRef s
         ∨ (Fixed.lastSoundTimeRef
              (fst (FixedPage.step random window canvas s e)) = t
            ∧ Fixed.lastSoundTimeRef s + 100 < t))
      ∧ (tones out ≠ [] →
         Fixed.lastSoundTimeRef
           (fst (FixedPage.step random window canvas s e)) = t).
Proof.
  destruct e as [x y t|now]; cbn [FixedPage.step fst snd].
  - right. eexists _, _. split; [reflexivity|]. split.
    + apply Fixed_last_sound_moves_on.
    + intros Hout.
      by destruct (Fixed_tone_stamps random window x y canvas t s Hout).
  - left. done.
Qed.

(** Outside the drum and note cells the time of the last sound stays. *)
Lemma Fixed_quiet_cell random window x y canvas t s :
  Fixed.silentRow (snd (Fixed.cellAt x y canvas)) = true
  ∨ Fixed.drumColumn (fst (Fixed.cellAt x y canvas))
    || Fixed.noteRegion (fst (Fixed.cellAt x y canvas))
         (snd (Fixed.cellAt x y canvas)) = false →
  Fixed.lastSoundTimeRef
    (stateAfter (Fixed.handleInteractionLogic random window x y canvas t s))
  = Fixed.lastSoundTimeRef s.
Proof.
  unfold Fixed.cellAt, Fixed.handleInteractionLogic. cbn [fst snd].
  intros [Hrow|[Hdrum Hnote]%orb_false_iff].
  - rewrite Hrow. split_handler; done.
  - rewrite Hdrum, Hnote. split_handler; done.
Qed.

Lemma Fixed_keeps_scale random window x y canvas t s :
  Fixed.scaleRef
    (stateAfter (Fixed.handleInteractionLogic random window x y canvas t s))
  = Fixed.scaleRef s.
Proof. unfold Fixed.handleInteractionLogic. split_handler; done. Qed.

Lemma acquireContext_kept window (a a' : bool) :
  acquireContext window a = ready → a' = a ∨ a' = true →
  acquireContext window a' = ready.
Proof. by intros Hready [->| ->]. Qed.

Lemma Fixed_context_grows random window x y canvas t s :
  let s' :=
    stateAfter (Fixed.handleInteractionLogic random window x y canvas t s) in
  Fixed.audioContextRef s' = Fixed.audioContextRef s
  ∨ Fixed.audioContextRef s' = true.
Proof.
  unfold Fixed.handleInteractionLogic.
  split_handler; cbn [stateAfter outcome fst Fixed.audioContextRef]; auto.
Qed.

Lemma FixedPage_step_good random window canvas s e :
  isSecureContext window = true →
  acquireContext window (Fixed.audioContextRef s) = ready
  ∧ Fixed.scaleRef s = Fixed.generateScale →
  (acquireContext window
     (Fixed.audioContextRef (fst (FixedPage.step random window canvas s e)))
   = ready
   ∧ Fixed.scaleRef (fst (FixedPage.step random window canvas s e))
     = Fixed.generateScale)
  ∧ ∀ t out,
      snd (FixedPage.step random window canvas s e) = [(t, out)] →
      tones out = [] →
      Fixed.lastSoundTimeRef (fst (FixedPage.step random window canvas s e))
      = Fixed.lastSoundTimeRef s.
Proof.
  intros Hsec [Hready Hscale].
  destruct e as [x y t|now]; cbn [FixedPage.step fst snd].
  - split; [split|].
    + eapply acquireContext_kept; [exact Hready|].
      apply Fixed_context_grows.
    + by rewrite Fixed_keeps_scale.
    + intros t' out [= <- <-] Hout.
      destruct (elapsed100 t (Fixed.lastSoundTimeRef s)) eqn:Hopen;
        [|by apply Fixed_too_soon].
      destruct (Fixed.silentRow (snd (Fixed.cellAt x y canvas))) eqn:Hrow;
        [apply Fixed_quiet_cell; by left|].
      destruct (Fixed.drumColumn (fst (Fixed.cellAt x y canvas))
                || Fixed.noteRegion (fst (Fixed.cellAt x y canvas))
                     (snd (Fixed.cellAt x y canvas))) eqn:Hcell;
        [|apply Fixed_quiet_cell; by right].
      destruct (Fixed_eligible_tone random window x y canvas t s
                  Hopen Hsec Hready Hscale Hrow Hcell) as [e He].
      by rewrite He in Hout.
  - split; [done|]. intros t out [=].
Qed.

(** *** The grid that fills the canvas *)

Lemma FillPage_run_cons random window canvas e es s :
  FillPage.run random window canvas (e :: es) s
  = (fst (FillPage.run random window canvas es
            (fst (FillPage.step random window canvas s e))),
     snd (FillPage.step random window canvas s e)
     ++ snd (FillPage.run random window canvas es
               (fst (FillPage.step random window canvas s e)))).
Proof.
  cbn [FillPage.run]. destruct (FillPage.step _ _ _ _ _) as [s' log].
  cbn [fst snd]. by destruct (FillPage.run _ _ _ _ _).
Qed.

Lemma Fill_last_sound_moves_on random window x y canvas t s :
  let s' :=
    stateAfter (Fill.handleInteractionLogic random window x y canvas t s) in
  Fill.lastSoundTimeRef s' = Fill.lastSoundTimeRef s
  ∨ (Fill.lastSoundTimeRef s' = t ∧ Fill.lastSoundTimeRef s + 100 < t).
Proof.
  unfold Fill.handleInteractionLogic.
  destruct (Fill.generateScale _); [|by left].
  destruct (elapsed100 t (Fill.lastSoundTimeRef s)) eqn:E.
  - apply Z.ltb_lt in E.
    split_handler; cbn [stateAfter outcome fst Fill.lastSoundTimeRef];
      first [by left | right; split; [done|lia]].
  - split_handler; by left.
Qed.

Lemma FillPage_step_log random window canvas s e :
  (snd (FillPage.step random window canvas s e) = []
   ∧ Fill.lastSoundTimeRef (fst (FillPage.step random window canvas s e))
     = Fill.lastSoundTimeRef s)
  ∨ ∃ t out,
      snd (FillPage.step random window canvas s e) = [(t, out)]
      ∧ (Fill.lastSoundTimeRef (fst (FillPage.step random window canvas s e))
         = Fill.lastSoundTimeRef s
         ∨ (Fill.lastSoundTimeRef
              (fst (FillPage.step random window canvas s e)) = t
            ∧ Fill.lastSoundTimeRef s + 100 < t))
      ∧ (tones out ≠ [] →
         Fill.lastSoundTimeRef
           (fst (FillPage.step random window canvas s e)) = t).
Proof.
  destruct e as [x y t|now]; cbn [FillPage.step fst snd].
  - right. eexists _, _. split; [reflexivity|]. split.
    + apply Fill_last_sound_moves_on.
    + intros Hout.
      by destruct (Fill_tone_stamps random window x y canvas t s Hout).
  - left. split; [done|]. unfold Fill.animate.
    by destruct (drawCellHighlights _ _ _).
Qed.

(** A pointer move inside the grid, with the limit passed and audio
    available, starts exactly one oscillator when the handler returns. *)
Lemma Fill_eligible_tone random window x y canvas t s :
  elapsed100 t (Fill.lastSoundTimeRef s) = true →
  isSecureContext window = true →
  acquireContext window (Fill.audioContextRef s) = ready →
  Fill.inGrid (Fill.columnsOf canvas) (fst (Fill.cellAt x y canvas))
    (snd (Fill.cellAt x y canvas)) = true →
  returned (Fill.handleInteractionLogic random window x y canvas t s) = true →
  ∃ e, tones (emitted
         (Fill.handleInteractionLogic random window x y canvas t s)) = [e].
Proof.
  intros Hopen Hsec Hready Hin.
  destruct (Fill_inGrid_numbered x y canvas Hin)
    as (zx & zy & zc & Hc & Hcell & Hx & Hy).
  revert Hin. rewrite Hcell, Hc.
  unfold Fill.columnsOf, Fill.cellAt in Hc, Hcell.
  injection Hcell as Hzx Hzy.
  assert (Hh : ¬ (height canvas == 0)%Q)
    by (eapply numbered_cell_height; [|exact Hzx]; done).
  destruct (volumeAt_finite y canvas Hh) as [v Hv].
  unfold Fill.handleInteractionLogic. cbn [fst snd]. rewrite Hc, Hzx, Hzy.
  intros Hin. rewrite Hin.
  destruct (Fill.generateScale _) as [scale|] eqn:Hscale; [|done].
  intros _.
  pose proof (Fill_scale_length zc scale ltac:(lia) Hscale) as Hlen.
  unfold Fill.generateScale in Hscale. rewrite of_Z_mul in Hscale.
  apply scale_of_length in Hscale.
  assert (Hidx : ($zy * $zc + $zx)%js = JS.of_Z (zy * zc + zx))
    by (by rewrite of_Z_mul, of_Z_add).
  rewrite Hidx, Hlen, ltb_of_Z.
  rewrite (proj2 (Z.ltb_lt _ _)) by nia.
  rewrite Hopen.
  assert (Hfreq : JS.get scale $(zy * zc + zx)
                  = Some (pitch (Z.to_nat (zy * zc + zx)))).
  { unfold JS.get. rewrite as_index_of_Z by nia. cbn [mbind option_bind].
    rewrite Hscale. unfold generateScale. apply tabulate_lookup.
    unfold Fill.rows. nia. }
  rewrite Hfreq, Hv.
  destruct (pushEach 3 _ _ _) as [shapes k].
  destruct (pushEach 2 _ _ _) as [particles k'].
  unfold playSound. rewrite Hsec, Hready. simpl. eauto.
Qed.

Lemma Fill_throw_quiet random window x y canvas t s :
  returned (Fill.handleInteractionLogic random window x y canvas t s) = false →
  Fill.lastSoundTimeRef
    (stateAfter (Fill.handleInteractionLogic random window x y canvas t s))
  = Fill.lastSoundTimeRef s.
Proof.
  unfold Fill.handleInteractionLogic.
  destruct (Fill.generateScale _); [|done].
  split_handler; done.
Qed.

Lemma Fill_context_grows random window x y canvas t s :
  let s' :=
    stateAfter (Fill.handleInteractionLogic random window x y canvas t s) in
  Fill.audioContextRef s' = Fill.audioContextRef s
  ∨ Fill.audioContextRef s' = true.
Proof.
  unfold Fill.handleInteractionLogic.
  destruct (Fill.generateScale _); [|by left].
  split_handler; cbn [stateAfter outcome fst Fill.audioContextRef]; auto.
Qed.

Lemma FillPage_step_good random window canvas s e :
  isSecureContext window = true →
  acquireContext window (Fill.audioContextRef s) = ready →
  acquireContext window
    (Fill.audioContextRef (fst (FillPage.step random window canvas s e)))
  = ready
  ∧ ∀ t out,
      snd (FillPage.step random window canvas s e) = [(t, out)] →
      tones out = [] →
      Fill.lastSoundTimeRef (fst (FillPage.step random window canvas s e))
      = Fill.lastSoundTimeRef s.
Proof.
  intros Hsec Hready.
  destruct e as [x y t|now]; cbn [FillPage.step fst snd].
  - split.
    + eapply acquireContext_kept; [exact Hready|].
      apply Fill_context_grows.
    + intros t' out [= <- <-] Hout.
      destruct (elapsed100 t (Fill.lastSoundTimeRef s)) eqn:Hopen;
        [|by apply Fill_too_soon].
      destruct (Fill.inGrid (Fill.columnsOf canvas)
                  (fst (Fill.cellAt x y canvas))
                  (snd (Fill.cellAt x y canvas))) eqn:Hin;
        [|by apply Fill_outside_grid].
      destruct (returned
                  (Fill.handleInteractionLogic random window x y canvas t s))
        eqn:Hret; [|by apply Fill_throw_quiet].
      destruct (Fill_eligible_tone random window x y canvas t s
                  Hopen Hsec Hready Hin Hret) as [e He].
      by rewrite He in Hout.
  - split; [|intros t out [=]]. unfold Fill.animate.
    by destruct (drawCellHighlights _ _ _).
Qed.

(** C4, as amended.  The rate limit is one for the whole page.  Take any
    run of the page on a canvas of positive height: pointer moves and
    frames [before], a pointer move at time [t1], any pointer moves and
    frames [between], a pointer move at time [t2], at whatever cells.
    An oscillator starts at [t1] only if [t1] is more than 100 ms after the
    last sound that fired (or, when none has, after the time
    [lastSoundTimeRef] began with).  If [t2] is less than 100 ms after
    [t1], at most one of the two moves starts an oscillator, and exactly one
    does when [t1] is more than 100 ms after the last sound that fired, the
    first move lies in a note or drum cell and audio is available.  This
    holds in the fixed grid and in the grid that fills the canvas, where
    the cells of the grid are the note cells and the handler is to return
    (it is left by a [RangeError] only on a grid of [2^32] cells or
    more). *)
Theorem rate_limit_at_most_one_of_a_pair
  (random : nat → Q) (window : Window) (canvas : Canvas) :
  (0 < height canvas)%Q →
  (∀ (before between : list FixedPage.Event) s x1 y1 t1 x2 y2 t2,
     let past := FixedPage.run random window canvas before s in
     let r1 :=
       Fixed.handleInteractionLogic random window x1 y1 canvas t1 (fst past)
     in
     let r2 :=
       Fixed.handleInteractionLogic random window x2 y2 canvas t2
         (fst (FixedPage.run random window canvas between (stateAfter r1)))
     in
     let since := t1 - lastFired (Fixed.lastSoundTimeRef s) (snd past) in
     (tones (emitted r1) ≠ [] → 100 < since)
     ∧ (t2 - t1 < 100 →
        (length (tones (emitted r1 ++ emitted r2)) ≤ 1)%nat)
     ∧ (t2 - t1 < 100 →
        100 < since →
        isSecureContext window = true →
        acquireContext window (Fixed.audioContextRef s) = ready →
        Fixed.scaleRef s = Fixed.generateScale →
        Fixed.silentRow (snd (Fixed.cellAt x1 y1 canvas)) = false →
        Fixed.drumColumn (fst (Fixed.cellAt x1 y1 canvas))
        || Fixed.noteRegion (fst (Fixed.cellAt x1 y1 canvas))
             (snd (Fixed.cellAt x1 y1 canvas)) = true →
        length (tones (emitted r1 ++ emitted r2)) = 1%nat))
  ∧ (∀ (before between : list Fill.Event) s x1 y1 t1 x2 y2 t2,
       let past := FillPage.run random window canvas before s in
       let r1 :=
         Fill.handleInteractionLogic random window x1 y1 canvas t1 (fst past)
       in
       let r2 :=
         Fill.handleInteractionLogic random window x2 y2 canvas t2
           (fst (FillPage.run random window canvas between (stateAfter r1)))
       in
       let since := t1 - lastFired (Fill.lastSoundTimeRef s) (snd past) in
       (tones (emitted r1) ≠ [] → 100 < since)
       ∧ (t2 - t1 < 100 →
          (length (tones (emitted r1 ++ emitted r2)) ≤ 1)%nat)
       ∧ (t2 - t1 < 100 →
          100 < since →
          isSecureContext window = true →
          acquireContext window (Fill.audioContextRef s) = ready →
          Fill.inGrid (Fill.columnsOf canvas)
            (fst (Fill.cellAt x1 y1 canvas))
            (snd (Fill.cellAt x1 y1 canvas)) = true →
          returned r1 = true →
          length (tones (emitted r1 ++ emitted r2)) = 1%nat)).
Proof.
  intros _. split.
  - intros before between s x1 y1 t1 x2 y2 t2 past r1 r2 since.
    pose proof (run_last_sound Fixed.lastSoundTimeRef
                  (FixedPage.step random window canvas)
                  (FixedPage.run random window canvas)
                  ltac:(done) (FixedPage_run_cons random window canvas)
                  (FixedPage_step_log random window canvas)) as Hrun.
    destruct (Hrun before s) as [_ Hpast]. fold past in Hpast.
    destruct (Hrun between (stateAfter r1)) as [Hbetween _].
    pose proof (Fixed_tone_stamps random window x1 y1 canvas t1 (fst past))
      as Hfirst.
    pose proof (Fixed_tone_stamps random window x2 y2 canvas t2
                  (fst (FixedPage.run random window canvas between
                          (stateAfter r1)))) as Hsecond.
    cbn zeta in Hfirst, Hsecond. fold r1 in Hfirst. fold r2 in Hsecond.
    pose proof (Fixed_single_tone random window x1 y1 canvas t1 (fst past))
      as Hone. fold r1 in Hone.
    pose proof (Fixed_single_tone random window x2 y2 canvas t2
                  (fst (FixedPage.run random window canvas between
                          (stateAfter r1)))) as Htwo. fold r2 in Htwo.
    assert (Hpair : t2 - t1 < 100 →
                    tones (emitted r1) ≠ [] → tones (emitted r2) = []).
    { intros Hnear Hfired.
      destruct (tones (emitted r2)) as [|e l] eqn:Hout; [done|].
      destruct Hfirst as [Hstamp _]; [done|].
      destruct Hsecond as [_ Hopen]; [done|].
      apply Z.ltb_lt in Hopen. lia. }
    split; [|split].
    + intros Hfired. destruct Hfirst as [_ Hopen]; [done|].
      apply Z.ltb_lt in Hopen. unfold since. lia.
    + intros Hnear. unfold tones in *. rewrite List.filter_app, length_app.
      destruct (List.filter isTone (emitted r1)) as [|e l] eqn:E1.
      * exact Htwo.
      * rewrite Hpair by done. simpl in *. lia.
    + intros Hnear Hlate Hsec Hready Hscale Hrow Hcell.
      destruct (run_good Fixed.lastSoundTimeRef
                  (FixedPage.step random window canvas)
                  (FixedPage.run random window canvas)
                  ltac:(done) (FixedPage_run_cons random window canvas)
                  (FixedPage_step_log random window canvas)
                  (λ s, acquireContext window (Fixed.audioContextRef s) = ready
                        ∧ Fixed.scaleRef s = Fixed.generateScale)
                  (λ s e, FixedPage_step_good random window canvas s e Hsec)
                  before s (conj Hready Hscale))
        as [[Hready' Hscale'] Hlast].
      fold past in Hready', Hscale', Hlast.
      assert (Hopen : elapsed100 t1 (Fixed.lastSoundTimeRef (fst past)) = true)
        by (unfold elapsed100; apply Z.ltb_lt; unfold since in Hlate; lia).
      destruct (Fixed_eligible_tone random window x1 y1 canvas t1 (fst past)
                  Hopen Hsec Hready' Hscale' Hrow Hcell) as [e He].
      fold r1 in He.
      unfold tones in *. rewrite List.filter_app, He, Hpair; [done..|].
      by rewrite He.
  - intros before between s x1 y1 t1 x2 y2 t2 past r1 r2 since.
    pose proof (run_last_sound Fill.lastSoundTimeRef
                  (FillPage.step random window canvas)
                  (FillPage.run random window canvas)
                  ltac:(done) (FillPage_run_cons random window canvas)
                  (FillPage_step_log random window canvas)) as Hrun.
    destruct (Hrun before s) as [_ Hpast]. fold past in Hpast.
    destruct (Hrun between (stateAfter r1)) as [Hbetween _].
    pose proof (Fill_tone_stamps random window x1 y1 canvas t1 (fst past))
      as Hfirst.
    pose proof (Fill_tone_stamps random window x2 y2 canvas t2
                  (fst (FillPage.run random window canvas between
                          (stateAfter r1)))) as Hsecond.
    cbn zeta in Hfirst, Hsecond. fold r1 in Hfirst. fold r2 in Hsecond.
    pose proof (Fill_single_tone random window x1 y1 canvas t1 (fst past))
      as Hone. fold r1 in Hone.
    pose proof (Fill_single_tone random window x2 y2 canvas t2
                  (fst (FillPage.run random window canvas between
                          (stateAfter r1)))) as Htwo. fold r2 in Htwo.
    assert (Hpair : t2 - t1 < 100 →
                    tones (emitted r1) ≠ [] → tones (emitted r2) = []).
    { intros Hnear Hfired.
      destruct (tones (emitted r2)) as [|e l] eqn:Hout; [done|].
      destruct Hfirst as [Hstamp _]; [done|].
      destruct Hsecond as [_ Hopen]; [done|].
      apply Z.ltb_lt in Hopen. lia. }
    split; [|split].
    + intros Hfired. destruct Hfirst as [_ Hopen]; [done|].
      apply Z.ltb_lt in Hopen. unfold since. lia.
    + intros Hnear. unfold tones in *. rewrite List.filter_app, length_app.
      destruct (List.filter isTone (emitted r1)) as [|e l] eqn:E1.
      * exact Htwo.
      * rewrite Hpair by done. simpl in *. lia.
    + intros Hnear Hlate Hsec Hready Hin Hret.
      destruct (run_good Fill.lastSoundTimeRef
                  (FillPage.step random window canvas)
                  (FillPage.run random window canvas)
                  ltac:(done) (FillPage_run_cons random window canvas)
                  (FillPage_step_log random window canvas)
                  (λ s, acquireContext window (Fill.audioContextRef s) = ready)
                  (λ s e, FillPage_step_good random window canvas s e Hsec)
                  before s Hready)
        as [Hready' Hlast].
      fold past in Hready', Hlast.
      assert (Hopen : elapsed100 t1 (Fill.lastSoundTimeRef (fst past)) = true)
        by (unfold elapsed100; apply Z.ltb_lt; unfold since in Hlate; lia).
      destruct (Fill_eligible_tone random window x1 y1 canvas t1 (fst past)
                  Hopen Hsec Hready' Hin Hret) as [e He].
      fold r1 in He.
      unfold tones in *. rewrite List.filter_app, He, Hpair; [done..|].
      by rewrite He.
Qed.

Lemma rate_limit_at_most_one_of_a_pair_witness :
  (let window := mkWindow true (Some constructs) 1600 700 1 in
   let canvas := mkCanvas 1600 700 in
   let past :=
     FixedPage.run (λ _, 0.5%Q) window canvas
       [FixedPage.pointer 150 150 1000; FixedPage.tick 1016]
       (Fixed.mount Fixed.initial) in
   let r1 :=
     Fixed.handleInteractionLogic (λ _, 0.5%Q) window 250 150 canvas 1150
       (fst past) in
   let r2 :=
     Fixed.handleInteractionLogic (λ _, 0.5%Q) window 450 150 canvas 1200
       (fst (FixedPage.run (λ _, 0.5%Q) window canvas
               [FixedPage.tick 1166; FixedPage.pointer 350 150 1180]
               (stateAfter r1))) in
   length (tones (emitted r1 ++ emitted r2)) = 1%nat)
  ∧ (let window := mkWindow true (Some constructs) 1600 800 1 in
     let canvas := mkCanvas 1600 800 in
     let past :=
       FillPage.run (λ _, 0.5%Q) window canvas
         [Fill.interaction 150 150 1000; Fill.frame 1016] Fill.initial in
     let r1 :=
       Fill.handleInteractionLogic (λ _, 0.5%Q) window 250 150 canvas 1150
         (fst past) in
     let r2 :=
       Fill.handleInteractionLogic (λ _, 0.5%Q) window 450 150 canvas 1200
         (fst (FillPage.run (λ _, 0.5%Q) window canvas
                 [Fill.frame 1166; Fill.interaction 350 150 1180]
                 (stateAfter r1))) in
     length (tones (emitted r1 ++ emitted r2)) = 1%nat).
Proof.
  split.
  - intros window canvas.
    destruct (rate_limit_at_most_one_of_a_pair (λ _, 0.5%Q) window canvas)
      as [HFixed _]; [reflexivity|].
    destruct (HFixed [FixedPage.pointer 150 150 1000; FixedPage.tick 1016]
                [FixedPage.tick 1166; FixedPage.pointer 350 150 1180]
                (Fixed.mount Fixed.initial) 250%Q 150%Q 1150 450%Q 150%Q 1200)
      as (_ & _ & Hone).
    apply Hone.
    + simpl. lia.
    + vm_compute. reflexivity.
    + reflexivity.
    + reflexivity.
    + reflexivity.
    + vm_compute. reflexivity.
    + vm_compute. reflexivity.
  - intros window canvas.
    destruct (rate_limit_at_most_one_of_a_pair (λ _, 0.5%Q) window canvas)
      as [_ HFill]; [reflexivity|].
    destruct (HFill [Fill.interaction 150 150 1000; Fill.frame 1016]
                [Fill.frame 1166; Fill.interaction 350 150 1180]
                Fill.initial 250%Q 150%Q 1150 450%Q 150%Q 1200)
      as (_ & _ & Hone).
    apply Hone.
    + simpl. lia.
    + vm_compute. reflexivity.
    + reflexivity.
    + reflexivity.
    + vm_compute. reflexivity.
    + vm_compute. reflexivity.
Defined.
